(** * Neon Trail Snake: the game core of [src/app/snake/page.tsx]

    The page keeps the hot-path state of the game (board, snake, food,
    committed and pending direction) in React refs and the session state
    (status, score, high score) in React state.  The callbacks [spawnFood],
    [resetSnake], [updateBoard], [startGame], [endGame], [tick] and
    [handleKey] are embedded below as computations in a small state and
    error monad over one record that gathers all of that state.

    Numbers.  Grid coordinates, board dimensions and scores are JavaScript
    numbers that only ever hold integers far below 2^53; they are modelled
    as [Z].  The only genuinely fractional quantities (the value returned
    by [Math.random], the bounding box of the container and the device
    pixel ratio) are modelled as rationals [Q].

    Randomness.  [Math.random] is an oracle: a stream [Math_random] of
    rationals, of which the state records how many have been consumed.

    Events.  The page is driven by resizes of its container, clicks on the
    start button, key presses and firings of the tick interval; [dispatch]
    and [run] embed that loop, and [reachable] collects the states it can
    lead to from a fresh mount.

    Outputs.  What [draw] paints is the list [drawCalls] of calls on the
    canvas context; the stored high score is a string in a finite map. *)

From Stdlib Require Import ZArith QArith Qround Qminmax Lia Lqa Ascii.
From stdpp Require Import base gmap sets list strings pretty.

Local Open Scope Z_scope.

(** ** Data model (lines 5-41) *)

Inductive Direction := up | down | left | right.

Record Point := mkPoint { x : Z; y : Z }.

Record Board := mkBoard {
  cols : Z;
  rows : Z;
  cell : Z;
  width : Z;
  height : Z;
  dpr : Q
}.

Inductive Status := ready | running | gameover.

Global Instance Direction_eq_dec : EqDecision Direction.
Proof. solve_decision. Defined.

Global Instance Status_eq_dec : EqDecision Status.
Proof. solve_decision. Defined.

Global Instance Point_eq_dec : EqDecision Point.
Proof. solve_decision. Defined.

Definition GRID_TARGET : Z := 28.
Definition MIN_CELL : Z := 14.
Definition MAX_CELL : Z := 26.
Definition TICK_MS : Z := 115.

Definition directionVectors (d : Direction) : Point :=
  match d with
  | up => {| x := 0; y := -1 |}
  | down => {| x := 0; y := 1 |}
  | left => {| x := -1; y := 0 |}
  | right => {| x := 1; y := 0 |}
  end.

Definition opposite (d : Direction) : Direction :=
  match d with
  | up => down
  | down => up
  | left => right
  | right => left
  end.

Definition clamp (value min max : Z) : Z := Z.min max (Z.max min value).

(** ** The state of the page

    [entropy] counts the calls to [Math.random] made so far; everything
    else is a ref or a piece of React state of [SnakePage]. *)

Record Game := mkGame {
  boardRef : Board;
  snakeRef : list Point;
  foodRef : Point;
  directionRef : Direction;
  pendingDirectionRef : Direction;
  status : Status;
  score : Z;
  highScore : Z;
  entropy : nat
}.

Definition set_boardRef (v : Board) (g : Game) : Game :=
  mkGame v (snakeRef g) (foodRef g) (directionRef g) (pendingDirectionRef g)
         (status g) (score g) (highScore g) (entropy g).
Definition set_snakeRef (v : list Point) (g : Game) : Game :=
  mkGame (boardRef g) v (foodRef g) (directionRef g) (pendingDirectionRef g)
         (status g) (score g) (highScore g) (entropy g).
Definition set_foodRef (v : Point) (g : Game) : Game :=
  mkGame (boardRef g) (snakeRef g) v (directionRef g) (pendingDirectionRef g)
         (status g) (score g) (highScore g) (entropy g).
Definition set_directionRef (v : Direction) (g : Game) : Game :=
  mkGame (boardRef g) (snakeRef g) (foodRef g) v (pendingDirectionRef g)
         (status g) (score g) (highScore g) (entropy g).
Definition set_pendingDirectionRef (v : Direction) (g : Game) : Game :=
  mkGame (boardRef g) (snakeRef g) (foodRef g) (directionRef g) v
         (status g) (score g) (highScore g) (entropy g).
Definition setStatus (v : Status) (g : Game) : Game :=
  mkGame (boardRef g) (snakeRef g) (foodRef g) (directionRef g)
         (pendingDirectionRef g) v (score g) (highScore g) (entropy g).
(** [setScore] and [setHighScore] take an updater function, as in the
    source ([setScore(0)] is the constant updater). *)
Definition setScore (f : Z -> Z) (g : Game) : Game :=
  mkGame (boardRef g) (snakeRef g) (foodRef g) (directionRef g)
         (pendingDirectionRef g) (status g) (f (score g)) (highScore g)
         (entropy g).
Definition setHighScore (f : Z -> Z) (g : Game) : Game :=
  mkGame (boardRef g) (snakeRef g) (foodRef g) (directionRef g)
         (pendingDirectionRef g) (status g) (score g) (f (highScore g))
         (entropy g).
Definition set_entropy (v : nat) (g : Game) : Game :=
  mkGame (boardRef g) (snakeRef g) (foodRef g) (directionRef g)
         (pendingDirectionRef g) (status g) (score g) (highScore g) v.

(** ** A state and error monad for the callbacks

    A callback either returns a value in a new state or throws: the one
    exception the core can raise is the [TypeError] of reading a property
    of [undefined].  A thrown error keeps the state reached so far. *)

Inductive Result (A : Type) : Type :=
| Ok (a : A) (g : Game)
| TypeError (g : Game).
Arguments Ok {A} a g.
Arguments TypeError {A} g.

Definition M (A : Type) : Type := Game -> Result A.

Definition final {A} (r : Result A) : Game :=
  match r with Ok _ g => g | TypeError g => g end.


Global Instance M_ret : MRet M := fun A a g => Ok a g.
Global Instance M_bind : MBind M := fun A B k m g =>
  match m g with
  | Ok a g' => k a g'
  | TypeError g' => TypeError g'
  end.

Definition reads {A} (f : Game -> A) : M A := fun g => Ok (f g) g.
Definition modify (f : Game -> Game) : M unit := fun g => Ok tt (f g).
Definition throw {A} : M A := fun g => TypeError g.

(** JavaScript truthiness of a number that is never [NaN]: [!n]. *)
Definition falsy (n : Z) : bool := n =? 0.

Section Core.

(** The stream of values that successive calls to [Math.random] return. *)
Variable Math_random : nat -> Q.

(** ** randomInt and spawnFood (lines 47-61) *)

Definition randomInt (max : Z) : M Z :=
  n ← reads entropy;
  modify (set_entropy (S n));;
  mret (Qfloor (Math_random n * inject_Z max)).

(** The template literal [`${x}-${y}`] of integer coordinates. *)
Definition cellKey (a b : Z) : string := pretty a +:+ "-" +:+ pretty b.

Definition occupiedSet (snake : list Point) : gset string :=
  list_to_set ((fun segment => cellKey (x segment) (y segment)) <$> snake).

Fixpoint spawnFood_attempts (attempts : nat) (occupied : gset string)
    (board : Board) : M Point :=
  match attempts with
  | O => mret {| x := 0; y := 0 |}
  | S attempts' =>
      a ← randomInt (cols board);
      b ← randomInt (rows board);
      if bool_decide (cellKey a b ∈ occupied)
      then spawnFood_attempts attempts' occupied board
      else mret {| x := a; y := b |}
  end.

Definition spawnFood (snake : list Point) (board : Board) : M Point :=
  let occupied := occupiedSet snake in
  spawnFood_attempts 500 occupied board.

(** ** Rendering (lines 105-166)

    [draw] paints the canvas from the refs and changes none of them. *)

Definition draw : M unit := mret tt.

(** ** resetSnake (lines 168-185) *)

(** Lines 172-179: the snake a reset lays down. *)
Definition startSnake (board : Board) : list Point :=
  let startX := cols board `div` 2 in
  let startY := rows board `div` 2 in
  [ {| x := startX; y := startY |};
    {| x := startX - 1; y := startY |};
    {| x := startX - 2; y := startY |} ].

Definition resetSnake : M unit :=
  board ← reads boardRef;
  if falsy (cols board) || falsy (rows board) then mret tt else
  modify (set_snakeRef (startSnake board));;
  modify (set_directionRef right);;
  modify (set_pendingDirectionRef right);;
  snake ← reads snakeRef;
  food ← spawnFood snake board;
  modify (set_foodRef food);;
  draw.

(** ** updateBoard (lines 187-212)

    The arguments are the bounding box of the mounted container and
    [window.devicePixelRatio]; the writes to the canvas element are
    rendering only.  [computeBoard] is the board of lines 193-200. *)

Definition computeBoard (boundsWidth boundsHeight devicePixelRatio : Q) : Board :=
  let dpr := if Qeq_bool devicePixelRatio 0 then 1%Q else devicePixelRatio in
  let cell :=
    clamp (Qfloor (Qmin boundsWidth boundsHeight / inject_Z GRID_TARGET))
          MIN_CELL MAX_CELL in
  let cols := Z.max 12 (Qfloor (boundsWidth / inject_Z cell)) in
  let rows := Z.max 12 (Qfloor (boundsHeight / inject_Z cell)) in
  let width := cols * cell in
  let height := rows * cell in
  mkBoard cols rows cell width height dpr.

Definition updateBoard (boundsWidth boundsHeight devicePixelRatio : Q) : M unit :=
  modify (set_boardRef
            (computeBoard boundsWidth boundsHeight devicePixelRatio));;
  st ← reads status;
  if bool_decide (st = ready) then resetSnake else draw.

(** ** startGame and endGame (lines 214-223) *)

Definition startGame : M unit :=
  board ← reads boardRef;
  if falsy (cols board) then mret tt else
  modify (setScore (fun _ => 0));;
  resetSnake;;
  modify (setStatus running).

Definition endGame : M unit := modify (setStatus gameover).

(** ** tick (lines 225-266)

    The source function returns nothing; the value returned here names the
    branch taken: [None] when the board guard returns early, [Some Died]
    when [endGame] is called, [Some Ate] when [hasEaten] holds and
    [Some Moved] otherwise.  On an empty snake [head] is [undefined] and
    reading [head.x] throws. *)

Inductive TickOutcome := Moved | Ate | Died.

Global Instance TickOutcome_eq_dec : EqDecision TickOutcome.
Proof. solve_decision. Defined.

(** The condition of the [if] of lines 237-243. *)
Definition hits (next : Point) (snake : list Point) : bool :=
  existsb (fun segment => (x segment =? x next) && (y segment =? y next)) snake.

Definition collision (next : Point) (board : Board) (snake : list Point) : bool :=
  (x next <? 0) || (y next <? 0) || (x next >=? cols board)
  || (y next >=? rows board) || hits next snake.

(** Line 235: the cell in front of the head. *)
Definition nextCell (head : Point) (direction : Direction) : Point :=
  let vector := directionVectors direction in
  {| x := x head + x vector; y := y head + y vector |}.

Definition tick : M (option TickOutcome) :=
  board ← reads boardRef;
  if falsy (cols board) || falsy (rows board) then mret None else
  snake ← reads snakeRef;
  direction ← reads pendingDirectionRef;
  modify (set_directionRef direction);;
  match snake with
  | [] => throw
  | head :: _ =>
    let next := nextCell head direction in
    if collision next board snake
    then endGame;; mret (Some Died)
    else
      food ← reads foodRef;
      let hasEaten := (x next =? x food) && (y next =? y food) in
      let nextSnake :=
        if negb hasEaten then removelast (next :: snake) else next :: snake in
      modify (set_snakeRef nextSnake);;
      (if hasEaten then
         current ← reads score;
         let nextScore := current + 1 in
         modify (setHighScore (fun prev => Z.max prev nextScore));;
         modify (setScore (fun _ => nextScore));;
         food' ← spawnFood nextSnake board;
         modify (set_foodRef food')
       else mret tt);;
      draw;;
      mret (Some (if hasEaten then Ate else Moved))
  end.

(** ** The keyboard handler (lines 279-319) *)

Definition lowerChar (c : ascii) : ascii :=
  let n := nat_of_ascii c in
  if (65 <=? n)%nat && (n <=? 90)%nat then ascii_of_nat (n + 32) else c.

Fixpoint toLowerCase (s : string) : string :=
  match s with
  | EmptyString => EmptyString
  | String c s' => String (lowerChar c) (toLowerCase s')
  end.

(** The object [controls] of lines 283-292, looked up by own keys: no key
    a keyboard reports names an inherited property of a plain object. *)
Definition controls : gmap string Direction :=
  list_to_map [ ("arrowup", up); ("arrowdown", down); ("arrowleft", left);
                ("arrowright", right); ("w", up); ("s", down); ("a", left);
                ("d", right) ].

(** Lines 311-314: the gate between a decoded direction and
    [pendingDirectionRef]. *)
Definition directionGate (current nextDirection : Direction) : M unit :=
  if bool_decide (opposite current = nextDirection) then mret tt
  else modify (set_pendingDirectionRef nextDirection).

Definition handleKey (eventKey : string) : M unit :=
  let key := toLowerCase eventKey in
  current ← reads directionRef;
  if bool_decide (key = " ") || bool_decide (key = "enter") then
    st ← reads status;
    if bool_decide (st ≠ running) then startGame else mret tt
  else if bool_decide (key = "r") then startGame
  else
    match controls !! key with
    | None => mret tt
    | Some nextDirection => directionGate current nextDirection
    end.

(** The spec's [requestDirection(candidate)]: [handleKey] past the decoding
    of the key. *)
Definition requestDirection (candidate : Direction) : M unit :=
  current ← reads directionRef;
  directionGate current candidate.

(** ** The event loop

    The page reacts to resizes of the container, clicks on the start
    button, key presses, and firings of the interval installed by the
    effect of lines 272-277, which exists only while the status is
    [running]. *)

Inductive Event :=
| Resize (boundsWidth boundsHeight devicePixelRatio : Q)
| Click
| Interval
| KeyDown (eventKey : string).

Definition dispatch (e : Event) : M unit :=
  match e with
  | Resize w h d => updateBoard w h d
  | Click => startGame
  | Interval =>
      st ← reads status;
      if bool_decide (st = running) then tick;; mret tt else mret tt
  | KeyDown k => handleKey k
  end.

Fixpoint run (es : list Event) : M unit :=
  match es with
  | [] => mret tt
  | e :: es' => dispatch e;; run es'
  end.

End Core.

(** The state of a freshly mounted page; [stored] is the high score parsed
    from local storage (lines 83-91). *)
Definition initial (stored : Z) : Game :=
  {| boardRef := mkBoard 0 0 0 0 0 1;
     snakeRef := [];
     foodRef := {| x := 0; y := 0 |};
     directionRef := right;
     pendingDirectionRef := right;
     status := ready;
     score := 0;
     highScore := stored;
     entropy := 0 |}.

(** ** Notions used to state the properties *)

(** Decimal digits, for the shape of cell keys. *)
Definition isDigit (c : ascii) : bool :=
  let n := nat_of_ascii c in (48 <=? n)%nat && (n <=? 57)%nat.

Fixpoint allDigits (s : string) : bool :=
  match s with
  | EmptyString => true
  | String c s' => isDigit c && allDigits s'
  end.

(** The cell that attempt number [i] of a call to [spawnFood] samples when
    the call starts after [n] draws: the attempt draws twice, first the
    column and then the row. *)
Definition sampled (Math_random : nat -> Q) (board : Board) (n i : nat) : Point :=
  {| x := Qfloor (Math_random (n + 2 * i)%nat * inject_Z (cols board));
     y := Qfloor (Math_random (n + 2 * i + 1)%nat * inject_Z (rows board)) |}.

(** [Math.random] returns a number in the half-open interval from 0 to 1. *)
Definition unitInterval (Math_random : nat -> Q) : Prop :=
  ∀ n, (0 <= Math_random n)%Q ∧ (Math_random n < 1)%Q.

Definition inBounds (p : Point) (board : Board) : Prop :=
  0 ≤ x p < cols board ∧ 0 ≤ y p < rows board.

(** The events that call [startGame]: a click on the button, the key [r],
    and the space and enter keys. *)
Definition startKey (eventKey : string) : bool :=
  let key := toLowerCase eventKey in
  bool_decide (key = " ") || bool_decide (key = "enter")
  || bool_decide (key = "r").

Definition isStart (e : Event) : bool :=
  match e with
  | Click => true
  | KeyDown k => startKey k
  | _ => false
  end.

(** The states the page can be in: those that some sequence of events
    leads to from a fresh mount. *)
Definition reachable (Math_random : nat -> Q) (g : Game) : Prop :=
  ∃ stored es, run Math_random es (initial stored) = Ok tt g.

(** What every reachable state satisfies: the board is either not yet
    sized or at least 12 by 12; before the board is sized nothing has
    started; once it is sized the snake is never empty. *)
Definition sizedOrNot (board : Board) : Prop :=
  (cols board = 0 ∧ rows board = 0) ∨ (12 ≤ cols board ∧ 12 ≤ rows board).

Definition wellFormed (g : Game) : Prop :=
  sizedOrNot (boardRef g) ∧
  (cols (boardRef g) = 0 → status g = ready ∧ score g = 0) ∧
  (cols (boardRef g) ≠ 0 → snakeRef g ≠ []).

(** ** Concrete states, used to exercise the theorems *)

Definition board12 : Board := mkBoard 12 12 14 168 168 1.

(** A stream of draws that is not constant. *)
Definition demoRandom : nat -> Q :=
  fun n => (Z.of_nat ((n * 7) mod 13) # 13)%Q.




(** The scenario of the spec: food right in front of a snake heading
    right on the minimal board. *)
Definition scenarioGame : Game :=
  {| boardRef := board12;
     snakeRef := [ {| x := 6; y := 6 |}; {| x := 5; y := 6 |};
                   {| x := 4; y := 6 |} ];
     foodRef := {| x := 7; y := 6 |};
     directionRef := right;
     pendingDirectionRef := right;
     status := running;
     score := 0;
     highScore := 0;
     entropy := 0 |}.

(** A snake curled so that the cell in front of its head, once it turns
    right, is its own tail. *)
Definition curledGame : Game :=
  {| boardRef := board12;
     snakeRef := [ {| x := 1; y := 1 |}; {| x := 1; y := 2 |};
                   {| x := 2; y := 2 |}; {| x := 2; y := 1 |} ];
     foodRef := {| x := 5; y := 5 |};
     directionRef := up;
     pendingDirectionRef := right;
     status := running;
     score := 1;
     highScore := 4;
     entropy := 0 |}.

(** A snake about to leave the board through the left wall. *)
Definition wallGame : Game :=
  {| boardRef := board12;
     snakeRef := [ {| x := 0; y := 6 |}; {| x := 1; y := 6 |};
                   {| x := 2; y := 6 |} ];
     foodRef := {| x := 7; y := 6 |};
     directionRef := left;
     pendingDirectionRef := left;
     status := running;
     score := 0;
     highScore := 0;
     entropy := 0 |}.

(** The state a fresh page with a stored high score of 3 reaches on
    [demoRandom] after a resize to 400 by 300, a click on the start button
    and one firing of the interval. *)
Definition demoEvents : list Event := [Resize 400 300 2; Click; Interval].

Definition demoGame : Game :=
  {| boardRef := mkBoard 28 21 14 392 294 2;
     snakeRef := [ {| x := 15; y := 10 |}; {| x := 14; y := 10 |};
                   {| x := 13; y := 10 |} ];
     foodRef := {| x := 2; y := 12 |};
     directionRef := right;
     pendingDirectionRef := right;
     status := running;
     score := 0;
     highScore := 3;
     entropy := 4 |}.

(** ** The stored high score (lines 23, 83-91 and 268-271)

    [localStorage] is a finite map from keys to strings; [window] is absent
    when the initializer runs on the server.  Strings are sequences of code
    units below 256, of which the white space that [parseInt] skips is the
    characters 9 to 13, the space and the no-break space.  [parseInt] is
    [Number.parseInt] at radix 10, with [None] for [NaN]; its value is
    exact, as it is in JavaScript for numbers below 2^53. *)


Definition isWhiteSpace (c : ascii) : bool :=
  let n := nat_of_ascii c in
  ((9 <=? n)%nat && (n <=? 13)%nat) || (n =? 32)%nat || (n =? 160)%nat.

Fixpoint trimStart (s : string) : string :=
  match s with
  | EmptyString => EmptyString
  | String c s' => if isWhiteSpace c then trimStart s' else s
  end.

Definition digitValue (c : ascii) : option N :=
  let n := nat_of_ascii c in
  if (48 <=? n)%nat && (n <=? 57)%nat then Some (N.of_nat (n - 48)) else None.

(** The value of the longest prefix of decimal digits, [acc] being the
    value read so far ([None]: no digit yet). *)
Fixpoint readDigits (s : string) (acc : option N) : option N :=
  match s with
  | EmptyString => acc
  | String c s' =>
      match digitValue c with
      | Some d => readDigits s' (Some (10 * default 0%N acc + d)%N)
      | None => acc
      end
  end.

Definition parseInt (s : string) : option Z :=
  let trimmed := trimStart s in
  let negative :=
    match trimmed with String "-"%char _ => true | _ => false end in
  let unsigned :=
    match trimmed with
    | String "-"%char rest => rest
    | String "+"%char rest => rest
    | _ => trimmed
    end in
  match readDigits unsigned None with
  | None => None
  | Some n => Some (if negative then - Z.of_N n else Z.of_N n)
  end.






(** ** The shape of a snake *)

Definition adjacent (p q : Point) : Prop :=
  Z.abs (x p - x q) + Z.abs (y p - y q) = 1.

Fixpoint chain (snake : list Point) : Prop :=
  match snake with
  | p :: rest =>
      match rest with
      | q :: _ => adjacent p q ∧ chain rest
      | [] => True
      end
  | [] => True
  end.

(** ** What draw paints (lines 105-166)

    The calls [draw] makes on the 2D context of a mounted canvas, in
    order.  Angles are given in multiples of [Math.PI]; assignments to
    [fillStyle], [strokeStyle] and [lineWidth] are calls of their own. *)

Module Canvas.

Inductive Call :=
| save
| restore
| scale (sx sy : Q)
| clearRect (left top w h : Z)
| createLinearGradient (x0 y0 x1 y1 : Z)
| addColorStop (offset : Z) (color : string)
| setFillStyleGradient
| setFillStyle (color : string)
| fillRect (left top w h : Z)
| setStrokeStyle (color : string)
| setLineWidth (w : Z)
| beginPath
| moveTo (px py : Z)
| lineTo (px py : Z)
| stroke
| arc (cx cy radius : Q) (startOverPi endOverPi : Q)
| fill.

End Canvas.

Definition drawSegment (board : Board) (index : nat) (segment : Point)
    : list Canvas.Call :=
  let isHead := bool_decide (index = 0%nat) in
  let inset := if isHead then 2 else 3 in
  [ Canvas.setFillStyle
      (if isHead then "#38bdf8" else "rgba(59, 130, 246, 0.9)");
    Canvas.fillRect (x segment * cell board + inset)
                    (y segment * cell board + inset)
                    (cell board - inset * 2) (cell board - inset * 2) ].

Definition drawCalls (g : Game) : list Canvas.Call :=
  let board := boardRef g in
  if falsy (cols board) || falsy (rows board) then [] else
  [ Canvas.save;
    Canvas.scale (dpr board) (dpr board);
    Canvas.clearRect 0 0 (width board) (height board);
    Canvas.createLinearGradient 0 0 (width board) (height board);
    Canvas.addColorStop 0 "#0f172a";
    Canvas.addColorStop 1 "#020617";
    Canvas.setFillStyleGradient;
    Canvas.fillRect 0 0 (width board) (height board);
    Canvas.setStrokeStyle "rgba(148, 163, 184, 0.1)";
    Canvas.setLineWidth 1 ]
  ++ flat_map (fun i =>
       [ Canvas.beginPath;
         Canvas.moveTo (i * cell board) 0;
         Canvas.lineTo (i * cell board) (height board);
         Canvas.stroke ]) (seqZ 0 (cols board + 1))
  ++ flat_map (fun j =>
       [ Canvas.beginPath;
         Canvas.moveTo 0 (j * cell board);
         Canvas.lineTo (width board) (j * cell board);
         Canvas.stroke ]) (seqZ 0 (rows board + 1))
  ++ concat (imap (drawSegment board) (snakeRef g))
  ++ [ Canvas.setFillStyle "#f97316";
       Canvas.beginPath;
       Canvas.arc
         (inject_Z (x (foodRef g) * cell board) + inject_Z (cell board) / 2)
         (inject_Z (y (foodRef g) * cell board) + inject_Z (cell board) / 2)
         (inject_Z (cell board) * (35 # 100)) 0 2;
       Canvas.fill;
       Canvas.restore ].

(** The rectangles filled, the path points visited and the circles drawn
    by a list of calls. *)
Definition filledRect (c : Canvas.Call) : option (Z * Z * Z * Z) :=
  match c with
  | Canvas.fillRect l t w h => Some (l, t, w, h)
  | _ => None
  end.

Definition pathPoint (c : Canvas.Call) : option (Z * Z) :=
  match c with
  | Canvas.moveTo a b | Canvas.lineTo a b => Some (a, b)
  | _ => None
  end.

Definition strokeCall (c : Canvas.Call) : option unit :=
  match c with Canvas.stroke => Some tt | _ => None end.

Definition drawnArc (c : Canvas.Call) : option (Q * Q * Q * Q * Q) :=
  match c with
  | Canvas.arc cx cy r a b => Some (cx, cy, r, a, b)
  | _ => None
  end.

(** [save] opens ([true]) and [restore] closes ([false]). *)
Definition bracket (c : Canvas.Call) : option bool :=
  match c with
  | Canvas.save => Some true
  | Canvas.restore => Some false
  | _ => None
  end.

(** The square [draw] fills for the segment at position [index]. *)
Definition segmentSquare (board : Board) (index : nat) (segment : Point)
    : Z * Z * Z * Z :=
  let inset := if bool_decide (index = 0%nat) then 2 else 3 in
  (x segment * cell board + inset, y segment * cell board + inset,
   cell board - inset * 2, cell board - inset * 2).

(** A rectangle of positive size strictly inside the cell of [p]. *)
Definition insideCell (board : Board) (p : Point) (r : Z * Z * Z * Z) : Prop :=
  let '(l, t, w, h) := r in
  0 < w ∧ 0 < h ∧
  x p * cell board < l ∧ l + w < (x p + 1) * cell board ∧
  y p * cell board < t ∧ t + h < (y p + 1) * cell board.

(** What the events keep true of the snake, the directions and the
    scores, beyond [wellFormed]. *)
Definition shaped (g : Game) : Prop :=
  NoDup (snakeRef g) ∧
  chain (snakeRef g) ∧
  (cols (boardRef g) ≠ 0 → Z.of_nat (length (snakeRef g)) = 3 + score g) ∧
  pendingDirectionRef g ≠ opposite (directionRef g) ∧
  (status g ≠ gameover →
   ∀ h n tl, snakeRef g = h :: n :: tl → h = nextCell n (directionRef g)) ∧
  (status g = ready → score g = 0) ∧
  0 ≤ score g ∧ score g ≤ Z.max 0 (highScore g).

(** Unfolds the monad's operations in the goal and the hypotheses. *)
Ltac run_M :=
  repeat (progress (unfold mbind, M_bind, mret, M_ret, reads, modify, throw,
                    draw, endGame in *; simpl in * )).

(** * Properties *)

(** ** Cell keys are injective

    The set [occupied] holds strings.  Two different cells never share a
    key: the decimal rendering of an integer is an optional minus sign
    followed by a non-empty run of digits, so the first dash after the
    digits of [x] is the separator. *)

Lemma append_cons c (s t : string) : String c s +:+ t = String c (s +:+ t).
Proof. reflexivity. Qed.

Lemma append_nil_l (t : string) : "" +:+ t = t.
Proof. reflexivity. Qed.

Lemma append_nil_r (s : string) : s +:+ "" = s.
Proof. induction s as [|c s IH]; [done|]. by rewrite append_cons, IH. Qed.

Lemma append_snoc (d : string) c (s : string) :
  d +:+ String c s = (d +:+ String c "") +:+ s.
Proof. induction d as [|c' d IH]; [done|]. by rewrite !append_cons, IH. Qed.

Lemma allDigits_snoc (d : string) c :
  allDigits d = true → isDigit c = true → allDigits (d +:+ String c "") = true.
Proof.
  intros Hd Hc. induction d as [|c' d IH].
  - rewrite append_nil_l. simpl. by rewrite Hc.
  - rewrite append_cons. simpl in *.
    apply andb_true_iff in Hd as [-> ?]. simpl. auto.
Qed.

Lemma pretty_N_char_digit n : isDigit (pretty_N_char n) = true.
Proof. unfold pretty_N_char. by repeat case_match. Qed.

Lemma pretty_N_go_digits n s :
  ∃ d, pretty_N_go n s = d +:+ s ∧ allDigits d = true ∧
       ((0 < n)%N → d ≠ "").
Proof.
  revert s. induction (N.lt_wf_0 n) as [n _ IH]; intros s.
  assert (n = 0 ∨ 0 < n)%N as [->|Hpos] by lia.
  - exists "". rewrite pretty_N_go_0. split_and!; [done|done|lia].
  - rewrite pretty_N_go_step by done.
    assert (n `div` 10 < n)%N as Hlt by (by apply N.div_lt).
    destruct (IH _ Hlt (String (pretty_N_char (n `mod` 10)) s))
      as (d & -> & Hd & _).
    exists (d +:+ String (pretty_N_char (n `mod` 10)) "").
    split_and!.
    + apply append_snoc.
    + apply allDigits_snoc; [done|apply pretty_N_char_digit].
    + intros _. by destruct d.
Qed.

Lemma pretty_N_digits (n : N) :
  allDigits (pretty n) = true ∧ pretty n ≠ "".
Proof.
  unfold pretty, pretty_N. case_decide as Hn; [done|].
  destruct (pretty_N_go_digits n "") as (d & Heq & Hd & Hne).
  rewrite Heq, append_nil_r. split; [done|]. apply Hne. lia.
Qed.

(** The rendering of an integer: a sign and its digits. *)
Lemma pretty_Z_shape (z : Z) :
  ∃ d, allDigits d = true ∧ d ≠ "" ∧
       (pretty z = d ∨ pretty z = String "-" d).
Proof.
  destruct z as [|p|p]; unfold pretty, pretty_Z.
  - exists "0". by split_and!; [..|left].
  - destruct (pretty_N_digits (Npos p)) as [? ?].
    exists (pretty (Npos p)). by split_and!; [..|left].
  - destruct (pretty_N_digits (Npos p)) as [? ?].
    exists (pretty (Npos p)). by split_and!; [..|right].
Qed.

Lemma digits_dash_split d1 d2 r1 r2 :
  allDigits d1 = true → allDigits d2 = true →
  d1 +:+ String "-" r1 = d2 +:+ String "-" r2 → d1 = d2 ∧ r1 = r2.
Proof.
  revert d2. induction d1 as [|c d1 IH]; intros [|c' d2] H1 H2 Heq;
    rewrite ?append_cons, ?append_nil_l in Heq; simpl in *.
  - by simplify_eq.
  - by simplify_eq.
  - by simplify_eq.
  - apply andb_true_iff in H1 as [_ H1]. apply andb_true_iff in H2 as [_ H2].
    simplify_eq. by destruct (IH d2 H1 H2) as [-> ->].
Qed.

Lemma cellKey_inj a b a' b' :
  cellKey a b = cellKey a' b' → a = a' ∧ b = b'.
Proof.
  unfold cellKey. intros Heq.
  cut (pretty a = pretty a' ∧ pretty b = pretty b').
  { intros [Ha Hb]. split; by apply (inj pretty). }
  destruct (pretty_Z_shape a) as (d & Hd & Hne & [Ha|Ha]),
           (pretty_Z_shape a') as (d' & Hd' & Hne' & [Ha'|Ha']);
    rewrite Ha, Ha' in Heq |- *; rewrite ?append_cons, ?append_nil_l in Heq.
  - by destruct (digits_dash_split _ _ _ _ Hd Hd' Heq) as [-> ->].
  - destruct d as [|c d]; [done|]. rewrite append_cons in Heq.
    simpl in *. by simplify_eq.
  - destruct d' as [|c d']; [done|]. rewrite append_cons in Heq.
    simpl in *. by simplify_eq.
  - simplify_eq.
    by destruct (digits_dash_split _ _ _ _ Hd Hd' Heq) as [-> ->].
Qed.

(** Membership in the [Set] of keys is membership in the snake. *)
Lemma occupiedSet_has snake a b :
  cellKey a b ∈ occupiedSet snake ↔ {| x := a; y := b |} ∈ snake.
Proof.
  unfold occupiedSet. rewrite elem_of_list_to_set, list_elem_of_fmap. split.
  - intros ([a' b'] & Heq & Hin). simpl in Heq.
    by destruct (cellKey_inj _ _ _ _ Heq) as [-> ->].
  - intros Hin. by exists {| x := a; y := b |}.
Qed.

(** ** State updates *)

Lemma set_entropy_id g : set_entropy (entropy g) g = g.
Proof. by destruct g. Qed.

(** ** spawnFood *)

Section SpawnFood.

Variable Math_random : nat -> Q.
Variable snake : list Point.
Variable board : Board.

Lemma sampled_shift n j : sampled Math_random board (S (S n)) j = sampled Math_random board n (S j).
Proof.
  unfold sampled.
  by replace (S (S n) + 2 * j)%nat with (n + 2 * S j)%nat by lia.
Qed.

Lemma attempt_occupied k n g :
  sampled Math_random board n 0 ∈ snake →
  spawnFood_attempts Math_random (S k) (occupiedSet snake) board
      (set_entropy n g)
  = spawnFood_attempts Math_random k (occupiedSet snake) board
      (set_entropy (S (S n)) g).
Proof.
  intros Hin. unfold sampled in Hin.
  rewrite Nat.mul_0_r, !Nat.add_0_r, Nat.add_1_r in Hin.
  apply occupiedSet_has in Hin. simpl. unfold randomInt. run_M.
  by rewrite bool_decide_eq_true_2.
Qed.

Lemma attempt_free k n g :
  sampled Math_random board n 0 ∉ snake →
  spawnFood_attempts Math_random (S k) (occupiedSet snake) board
      (set_entropy n g)
  = Ok (sampled Math_random board n 0) (set_entropy (S (S n)) g).
Proof.
  intros Hin. unfold sampled in *.
  rewrite Nat.mul_0_r, !Nat.add_0_r, Nat.add_1_r in *.
  rewrite <-occupiedSet_has in Hin. simpl. unfold randomInt. run_M.
  by rewrite bool_decide_eq_false_2.
Qed.

Lemma attempts_first_free k : ∀ n i g,
  (i < k)%nat →
  (∀ j, (j < i)%nat → sampled Math_random board n j ∈ snake) →
  sampled Math_random board n i ∉ snake →
  spawnFood_attempts Math_random k (occupiedSet snake) board (set_entropy n g)
  = Ok (sampled Math_random board n i) (set_entropy (n + 2 * S i) g).
Proof.
  induction k as [|k IH]; intros n i g Hi Hbefore Hfree; [lia|].
  destruct i as [|i].
  - rewrite attempt_free by done. do 2 f_equal. lia.
  - rewrite attempt_occupied by (apply Hbefore; lia).
    rewrite (IH (S (S n)) i).
    + rewrite sampled_shift. do 2 f_equal. lia.
    + lia.
    + intros j Hj. rewrite sampled_shift. apply Hbefore. lia.
    + by rewrite sampled_shift.
Qed.

Lemma attempts_exhausted k : ∀ n g,
  (∀ j, (j < k)%nat → sampled Math_random board n j ∈ snake) →
  spawnFood_attempts Math_random k (occupiedSet snake) board (set_entropy n g)
  = Ok {| x := 0; y := 0 |} (set_entropy (n + 2 * k) g).
Proof.
  induction k as [|k IH]; intros n g Hall.
  - simpl. run_M. do 2 f_equal. lia.
  - rewrite attempt_occupied by (apply Hall; lia).
    rewrite IH.
    + do 2 f_equal. lia.
    + intros j Hj. rewrite sampled_shift. apply Hall. lia.
Qed.

(** Whatever the draws, a call returns: either the first free sampled
    cell, or the fallback after [k] occupied ones. *)
Lemma attempts_cases k n :
  (∃ i, (i < k)%nat ∧ (∀ j, (j < i)%nat → sampled Math_random board n j ∈ snake) ∧
        sampled Math_random board n i ∉ snake)
  ∨ (∀ j, (j < k)%nat → sampled Math_random board n j ∈ snake).
Proof.
  induction k as [|k [IH|IH]].
  - right. lia.
  - left. destruct IH as (i & ? & ? & ?). exists i. split_and!; [lia|done..].
  - destruct (decide (sampled Math_random board n k ∈ snake)) as [Hin|Hout].
    + right. intros j Hj. destruct (decide (j = k)) as [->|]; [done|].
      apply IH. lia.
    + left. exists k. split_and!; [lia| |done]. intros j Hj. by apply IH.
Qed.

End SpawnFood.

Lemma spawnFood_frame Math_random snake board g :
  ∃ p n, spawnFood Math_random snake board g = Ok p (set_entropy n g) ∧
         (entropy g ≤ n ≤ entropy g + 1000)%nat.
Proof.
  unfold spawnFood.
  destruct (attempts_cases Math_random snake board 500 (entropy g))
    as [(i & Hi & Hbefore & Hfree)|Hall].
  - pose proof (attempts_first_free Math_random snake board 500
                  (entropy g) i g Hi Hbefore Hfree) as Heq.
    rewrite set_entropy_id in Heq. eexists _, _. split; [exact Heq|]. lia.
  - pose proof (attempts_exhausted Math_random snake board 500
                  (entropy g) g Hall) as Heq.
    rewrite set_entropy_id in Heq. eexists _, _. split; [exact Heq|]. lia.
Qed.

(** ** tick *)

Lemma hits_spec next snake : hits next snake = true ↔ next ∈ snake.
Proof.
  unfold hits. rewrite existsb_exists. setoid_rewrite <-list_elem_of_In.
  split.
  - intros ([a b] & Hin & Heq). destruct next as [a' b']. simpl in Heq.
    apply andb_true_iff in Heq as [?%Z.eqb_eq ?%Z.eqb_eq]. by subst.
  - intros Hin. exists next. split; [done|]. by rewrite !Z.eqb_refl.
Qed.

Lemma collision_spec next board snake :
  collision next board snake = true ↔ ¬ inBounds next board ∨ next ∈ snake.
Proof.
  unfold collision, inBounds. rewrite !orb_true_iff, hits_spec.
  rewrite !Z.ltb_lt, !Z.geb_le. split.
  - intros [[[[?|?]|?]|?]|?]; [left; lia..|by right].
  - intros [Hout|?]; [|by right]. left.
    destruct (decide (x next < 0)); [by repeat left|].
    destruct (decide (y next < 0)); [by left; left; right|].
    destruct (decide (cols board ≤ x next)); [by left; right|].
    destruct (decide (rows board ≤ y next)); [by right|]. lia.
Qed.

Lemma tick_unsized Math_random g :
  cols (boardRef g) = 0 ∨ rows (boardRef g) = 0 →
  tick Math_random g = Ok None g.
Proof.
  intros H. unfold tick. run_M. unfold falsy.
  by destruct H as [->%Z.eqb_eq| ->%Z.eqb_eq]; rewrite ?orb_true_r.
Qed.

(** The three branches of a tick on a sized board and a non-empty snake,
    with the state each one leaves. *)
Lemma tick_sized Math_random g head tl :
  cols (boardRef g) ≠ 0 → rows (boardRef g) ≠ 0 →
  snakeRef g = head :: tl →
  let next := nextCell head (pendingDirectionRef g) in
  let committed := set_directionRef (pendingDirectionRef g) g in
  if collision next (boardRef g) (snakeRef g) then
    tick Math_random g = Ok (Some Died) (setStatus gameover committed)
  else if bool_decide (next = foodRef g) then
    let grown :=
      setScore (fun _ => score g + 1)
        (setHighScore (fun prev => Z.max prev (score g + 1))
           (set_snakeRef (next :: snakeRef g) committed)) in
    ∃ food' n,
      spawnFood Math_random (next :: snakeRef g) (boardRef g) grown
        = Ok food' (set_entropy n grown) ∧
      tick Math_random g = Ok (Some Ate) (set_foodRef food' (set_entropy n grown))
  else
    tick Math_random g
    = Ok (Some Moved)
         (set_snakeRef (next :: removelast (snakeRef g)) committed).
Proof.
  intros Hc Hr Hs next committed.
  assert (falsy (cols (boardRef g)) || falsy (rows (boardRef g)) = false)
    as Hsized.
  { unfold falsy. apply orb_false_iff. by rewrite !Z.eqb_neq. }
  assert (∀ food : Point,
    (x next =? x food) && (y next =? y food) = bool_decide (next = food))
    as Heats.
  { intros [a b]. destruct next as [a' b']. simpl.
    destruct (bool_decide_reflect ({| x := a'; y := b' |} = {| x := a; y := b |}))
      as [[= -> ->]|Hne].
    - by rewrite !Z.eqb_refl.
    - apply andb_false_iff.
      destruct (decide (a' = a)) as [->|]; [right|left]; apply Z.eqb_neq;
        congruence. }
  unfold tick. run_M. rewrite Hsized, Hs. fold next. rewrite <-Hs.
  destruct (collision next (boardRef g) (snakeRef g)) eqn:Hcol; [done|].
  rewrite Heats. simpl.
  destruct (bool_decide (next = foodRef g)) eqn:Heat; simpl.
  - set (grown := setScore _ _).
    destruct (spawnFood_frame Math_random (next :: snakeRef g) (boardRef g)
                grown) as (p & n & Hsp & _).
    exists p, n. split; [exact Hsp|].
    match goal with |- context [spawnFood ?r ?s ?b ?G] =>
      change (spawnFood r s b G) with (spawnFood r s b grown) end.
    by rewrite Hsp.
  - by rewrite Hs.
Qed.

(** ** resetSnake, startGame, updateBoard *)

Lemma sized_truthy (board : Board) :
  cols board ≠ 0 → rows board ≠ 0 →
  falsy (cols board) || falsy (rows board) = false.
Proof. intros. unfold falsy. apply orb_false_iff. by rewrite !Z.eqb_neq. Qed.

Lemma resetSnake_unsized Math_random g :
  cols (boardRef g) = 0 ∨ rows (boardRef g) = 0 →
  resetSnake Math_random g = Ok tt g.
Proof.
  intros H. unfold resetSnake. run_M. unfold falsy.
  by destruct H as [->%Z.eqb_eq| ->%Z.eqb_eq]; rewrite ?orb_true_r.
Qed.

Lemma resetSnake_sized Math_random g :
  cols (boardRef g) ≠ 0 → rows (boardRef g) ≠ 0 →
  let line := startSnake (boardRef g) in
  let laid :=
    set_pendingDirectionRef right
      (set_directionRef right (set_snakeRef line g)) in
  ∃ food n,
    spawnFood Math_random line (boardRef g) laid = Ok food (set_entropy n laid) ∧
    resetSnake Math_random g = Ok tt (set_foodRef food (set_entropy n laid)).
Proof.
  intros Hc Hr line laid.
  destruct (spawnFood_frame Math_random line (boardRef g) laid)
    as (food & n & Hsp & _).
  exists food, n. split; [done|].
  unfold resetSnake. run_M. rewrite sized_truthy by done.
  match goal with |- context [spawnFood ?r ?s ?b ?G] =>
    change (spawnFood r s b G) with (spawnFood r line (boardRef g) laid) end.
  by rewrite Hsp.
Qed.

Lemma startGame_unsized Math_random g :
  cols (boardRef g) = 0 → startGame Math_random g = Ok tt g.
Proof. intros H. unfold startGame. run_M. unfold falsy. by rewrite H. Qed.

Lemma startGame_sized Math_random g :
  cols (boardRef g) ≠ 0 → rows (boardRef g) ≠ 0 →
  let line := startSnake (boardRef g) in
  let laid :=
    set_pendingDirectionRef right
      (set_directionRef right (set_snakeRef line (setScore (fun _ => 0) g))) in
  ∃ food n,
    spawnFood Math_random line (boardRef g) laid = Ok food (set_entropy n laid) ∧
    startGame Math_random g
    = Ok tt (setStatus running (set_foodRef food (set_entropy n laid))).
Proof.
  intros Hc Hr line laid.
  destruct (resetSnake_sized Math_random (setScore (fun _ => 0) g) Hc Hr)
    as (food & n & Hsp & Hreset).
  exists food, n. split; [exact Hsp|].
  unfold startGame. run_M. unfold falsy.
  rewrite (proj2 (Z.eqb_neq _ _) Hc).
  change (match resetSnake Math_random (setScore (fun _ => 0) g) with
          | Ok _ g' => Ok tt (setStatus running g')
          | TypeError g' => TypeError g'
          end = Ok tt (setStatus running (set_foodRef food (set_entropy n laid)))).
  by rewrite Hreset.
Qed.

(** With a sized board whose row count is zero, only the score and the
    status change: [resetSnake] has its own, stricter guard. *)
Lemma startGame_half_sized Math_random g :
  cols (boardRef g) ≠ 0 → rows (boardRef g) = 0 →
  startGame Math_random g = Ok tt (setStatus running (setScore (fun _ => 0) g)).
Proof.
  intros Hc Hr. unfold startGame. run_M. unfold falsy.
  rewrite (proj2 (Z.eqb_neq _ _) Hc).
  change (match resetSnake Math_random (setScore (fun _ => 0) g) with
          | Ok _ g' => Ok tt (setStatus running g')
          | TypeError g' => TypeError g'
          end = Ok tt (setStatus running (setScore (fun _ => 0) g))).
  by rewrite resetSnake_unsized by (by right).
Qed.

(** ** What a tick changes

    A summary of [tick_sized], field by field. *)
Lemma tick_effects Math_random g h tl :
  cols (boardRef g) ≠ 0 → rows (boardRef g) ≠ 0 →
  snakeRef g = h :: tl →
  let next := nextCell h (pendingDirectionRef g) in
  ∃ outcome g',
    tick Math_random g = Ok (Some outcome) g' ∧
    boardRef g' = boardRef g ∧
    directionRef g' = pendingDirectionRef g ∧
    pendingDirectionRef g' = pendingDirectionRef g ∧
    match outcome with
    | Died =>
        collision next (boardRef g) (snakeRef g) = true ∧
        snakeRef g' = snakeRef g ∧ foodRef g' = foodRef g ∧
        score g' = score g ∧ highScore g' = highScore g ∧
        status g' = gameover ∧ entropy g' = entropy g
    | Ate =>
        collision next (boardRef g) (snakeRef g) = false ∧
        next = foodRef g ∧
        snakeRef g' = next :: snakeRef g ∧
        score g' = score g + 1 ∧
        highScore g' = Z.max (highScore g) (score g + 1) ∧
        status g' = status g
    | Moved =>
        collision next (boardRef g) (snakeRef g) = false ∧
        next ≠ foodRef g ∧
        snakeRef g' = next :: removelast (snakeRef g) ∧
        foodRef g' = foodRef g ∧
        score g' = score g ∧ highScore g' = highScore g ∧
        status g' = status g ∧ entropy g' = entropy g
    end.
Proof.
  intros Hc Hr Hs next.
  pose proof (tick_sized Math_random g h tl Hc Hr Hs) as Hcase.
  simpl in Hcase. fold next in Hcase.
  destruct (collision next (boardRef g) (snakeRef g)) eqn:Hcol.
  - eexists Died, _. split; [exact Hcase|]. by split_and!.
  - destruct (bool_decide_reflect (next = foodRef g)) as [Heat|Heat].
    + destruct Hcase as (food' & n & _ & Htick).
      eexists Ate, _. split; [exact Htick|]. by split_and!.
    + eexists Moved, _. split; [exact Hcase|]. by split_and!.
Qed.

(** ** The keyboard handler *)

Lemma directionGate_spec current candidate g :
  directionGate current candidate g
  = Ok tt (if bool_decide (candidate = opposite current) then g
           else set_pendingDirectionRef candidate g).
Proof.
  unfold directionGate.
  destruct (bool_decide_reflect (opposite current = candidate)) as [<-|Hne].
  - by rewrite bool_decide_eq_true_2.
  - by rewrite bool_decide_eq_false_2 by congruence.
Qed.

Lemma controls_not_startKey k c :
  controls !! toLowerCase k = Some c → startKey k = false.
Proof.
  unfold startKey. intros Hk.
  repeat match goal with
  | |- context [bool_decide (toLowerCase k = ?s)] =>
      destruct (bool_decide_reflect (toLowerCase k = s)) as [Heq|_];
        [rewrite Heq in Hk; vm_compute in Hk; discriminate|]
  end.
  done.
Qed.

Lemma handleKey_direction Math_random k c g :
  controls !! toLowerCase k = Some c →
  handleKey Math_random k g = requestDirection c g.
Proof.
  intros Hk. pose proof (controls_not_startKey k c Hk) as Hns.
  unfold startKey in Hns.
  apply orb_false_iff in Hns as [Hns Hr]. 
  unfold handleKey, requestDirection. run_M. by rewrite Hns, Hr, Hk.
Qed.

Lemma handleKey_other Math_random k g :
  startKey k = false → controls !! toLowerCase k = None →
  handleKey Math_random k g = Ok tt g.
Proof.
  intros Hns Hk. unfold startKey in Hns.
  apply orb_false_iff in Hns as [Hns Hr].
  unfold handleKey. run_M. by rewrite Hns, Hr, Hk.
Qed.

Lemma handleKey_start Math_random k g :
  startKey k = true →
  handleKey Math_random k g = startGame Math_random g ∨
  (status g = running ∧ handleKey Math_random k g = Ok tt g).
Proof.
  unfold startKey. intros Hk. unfold handleKey. run_M.
  destruct (bool_decide (toLowerCase k = " ") || bool_decide (toLowerCase k = "enter")).
  - destruct (bool_decide_reflect (status g ≠ running)) as [Hst|Hst].
    + by left.
    + right. split; [|done]. by destruct (decide (status g = running)).
  - simpl in Hk. rewrite Hk. by left.
Qed.

Lemma tick_empty Math_random g :
  cols (boardRef g) ≠ 0 → rows (boardRef g) ≠ 0 → snakeRef g = [] →
  tick Math_random g = TypeError (set_directionRef (pendingDirectionRef g) g).
Proof.
  intros Hc Hr Hs. unfold tick. run_M. by rewrite sized_truthy, Hs by done.
Qed.

(** ** Callbacks on arbitrary states: what they leave alone *)

Lemma resetSnake_total Math_random g :
  ∃ g', resetSnake Math_random g = Ok tt g' ∧
        boardRef g' = boardRef g ∧ status g' = status g ∧
        score g' = score g ∧ highScore g' = highScore g ∧
        (cols (boardRef g) ≠ 0 → rows (boardRef g) ≠ 0 →
         snakeRef g' = startSnake (boardRef g)).
Proof.
  destruct (decide (cols (boardRef g) = 0)) as [Hc|Hc].
  { exists g. rewrite resetSnake_unsized by (by left). by split_and!. }
  destruct (decide (rows (boardRef g) = 0)) as [Hr|Hr].
  { exists g. rewrite resetSnake_unsized by (by right). by split_and!. }
  destruct (resetSnake_sized Math_random g Hc Hr) as (food & n & _ & Heq).
  eexists. split; [exact Heq|]. by split_and!.
Qed.

Lemma startGame_total Math_random g :
  ∃ g', startGame Math_random g = Ok tt g' ∧
        boardRef g' = boardRef g ∧ highScore g' = highScore g ∧
        (cols (boardRef g) = 0 → g' = g) ∧
        (cols (boardRef g) ≠ 0 → score g' = 0 ∧ status g' = running) ∧
        (cols (boardRef g) ≠ 0 → rows (boardRef g) ≠ 0 →
         snakeRef g' = startSnake (boardRef g)).
Proof.
  destruct (decide (cols (boardRef g) = 0)) as [Hc|Hc].
  { exists g. rewrite startGame_unsized by done. by split_and!. }
  destruct (decide (rows (boardRef g) = 0)) as [Hr|Hr].
  { eexists. rewrite startGame_half_sized by done. by split_and!. }
  destruct (startGame_sized Math_random g Hc Hr) as (food & n & _ & Heq).
  eexists. split; [exact Heq|]. by split_and!.
Qed.

Lemma computeBoard_spec w h d :
  let board := computeBoard w h d in
  12 ≤ cols board ∧ 12 ≤ rows board ∧ 14 ≤ cell board ≤ 26 ∧
  width board = cols board * cell board ∧
  height board = rows board * cell board.
Proof. unfold computeBoard, clamp, MIN_CELL, MAX_CELL. simpl. lia. Qed.

Lemma updateBoard_total Math_random w h d g :
  ∃ g', updateBoard Math_random w h d g = Ok tt g' ∧
        12 ≤ cols (boardRef g') ∧ 12 ≤ rows (boardRef g') ∧
        status g' = status g ∧ score g' = score g ∧
        highScore g' = highScore g ∧
        (status g ≠ ready → snakeRef g' = snakeRef g ∧ foodRef g' = foodRef g) ∧
        (status g = ready → snakeRef g' = startSnake (boardRef g')).
Proof.
  pose proof (computeBoard_spec w h d) as (Hc & Hr & _).
  unfold updateBoard. set (board := computeBoard w h d) in *.
  unfold mbind, M_bind, reads, modify, draw, mret, M_ret.
  change (status (set_boardRef board g)) with (status g).
  destruct (bool_decide_reflect (status g = ready)) as [Hst|Hst].
  - destruct (resetSnake_total Math_random (set_boardRef board g))
      as (g' & Heq & Hb & ? & ? & ? & Hline).
    exists g'. split; [exact Heq|]. simpl in *. rewrite Hb.
    split_and!; try done. intros _. apply Hline; lia.
  - eexists. split; [reflexivity|]. by split_and!.
Qed.

Lemma handleKey_total Math_random k g :
  ∃ g', handleKey Math_random k g = Ok tt g' ∧
        boardRef g' = boardRef g ∧ highScore g' = highScore g ∧
        (startKey k = false →
         snakeRef g' = snakeRef g ∧ foodRef g' = foodRef g ∧
         score g' = score g ∧ status g' = status g ∧
         directionRef g' = directionRef g) ∧
        (startKey k = true →
         startGame Math_random g = Ok tt g' ∨ g' = g).
Proof.
  destruct (startKey k) eqn:Hstart.
  - destruct (startGame_total Math_random g) as (g' & Heq & ? & ? & _).
    destruct (handleKey_start Math_random k g Hstart) as [Hk|[_ Hk]].
    + exists g'. rewrite Hk. split_and!; try done. by left.
    + exists g. split_and!; try done. by right.
  - destruct (controls !! toLowerCase k) as [c|] eqn:Hk.
    + rewrite (handleKey_direction _ _ _ _ Hk).
      unfold requestDirection. run_M. rewrite directionGate_spec.
      eexists. split; [reflexivity|].
      by destruct (bool_decide (c = opposite (directionRef g))); split_and!.
    + exists g. rewrite handleKey_other by done. by split_and!.
Qed.

(** A tick on any state at all: scores never go down. *)
Lemma tick_scores Math_random g :
  score g ≤ score (final (tick Math_random g)) ∧
  highScore g ≤ highScore (final (tick Math_random g)).
Proof.
  destruct (decide (cols (boardRef g) = 0)) as [Hc|Hc].
  { by rewrite tick_unsized by (by left). }
  destruct (decide (rows (boardRef g) = 0)) as [Hr|Hr].
  { by rewrite tick_unsized by (by right). }
  destruct (snakeRef g) as [|h tl] eqn:Hs.
  { by rewrite tick_empty. }
  destruct (tick_effects Math_random g h tl Hc Hr Hs)
    as (o & g' & -> & _ & _ & _ & Ho).
  destruct o; simpl; destruct_and!; lia.
Qed.

(** ** The event loop *)

Lemma run_cons Math_random e es g :
  run Math_random (e :: es) g
  = match dispatch Math_random e g with
    | Ok _ g' => run Math_random es g'
    | TypeError g' => TypeError g'
    end.
Proof. reflexivity. Qed.

Lemma dispatch_interval Math_random g :
  dispatch Math_random Interval g
  = if bool_decide (status g = running)
    then match tick Math_random g with
         | Ok _ g' => Ok tt g'
         | TypeError g' => TypeError g'
         end
    else Ok tt g.
Proof. simpl. run_M. by destruct (bool_decide (status g = running)). Qed.

Lemma dispatch_scores Math_random e g :
  highScore g ≤ highScore (final (dispatch Math_random e g)) ∧
  (isStart e = false → score g ≤ score (final (dispatch Math_random e g))).
Proof.
  destruct e as [w h d| | |k].
  - destruct (updateBoard_total Math_random w h d g)
      as (g' & Heq & _ & _ & _ & ? & ? & _).
    simpl. rewrite Heq. simpl. lia.
  - destruct (startGame_total Math_random g) as (g' & Heq & _ & ? & _).
    simpl. rewrite Heq. simpl. split; [lia|done].
  - rewrite dispatch_interval.
    destruct (bool_decide (status g = running)); [|done].
    pose proof (tick_scores Math_random g) as [? ?].
    by destruct (tick Math_random g).
  - destruct (handleKey_total Math_random k g) as (g' & Heq & _ & ? & Hns & _).
    simpl. rewrite Heq. simpl. split; [lia|].
    intros Hk. destruct (Hns Hk) as (_ & _ & ? & _). lia.
Qed.

Lemma run_highScore Math_random es : ∀ g,
  highScore g ≤ highScore (final (run Math_random es g)).
Proof.
  induction es as [|e es IH]; intros g; [done|].
  rewrite run_cons.
  pose proof (dispatch_scores Math_random e g) as [He _].
  destruct (dispatch Math_random e g) as [[] g'|g']; simpl in *; [|done].
  specialize (IH g'). lia.
Qed.

Lemma dispatch_wellFormed Math_random e g :
  wellFormed g →
  ∃ g', dispatch Math_random e g = Ok tt g' ∧ wellFormed g'.
Proof.
  intros (Hboard & Hunsized & Hsnake).
  destruct e as [w h d| | |k].
  - destruct (updateBoard_total Math_random w h d g)
      as (g' & Heq & Hc & Hr & Hst & Hsc & _ & Hrun & Hready).
    exists g'. split; [exact Heq|]. split_and!.
    + by right.
    + lia.
    + intros _. destruct (decide (status g = ready)) as [Hs|Hs].
      * by rewrite Hready.
      * destruct (Hrun Hs) as [-> _]. apply Hsnake. intros H0.
        by destruct (Hunsized H0).
  - destruct (startGame_total Math_random g)
      as (g' & Heq & Hb & _ & Hno & Hyes & Hline).
    exists g'. split; [exact Heq|].
    destruct (decide (cols (boardRef g) = 0)) as [Hc|Hc].
    + by rewrite (Hno Hc).
    + unfold wellFormed. rewrite Hb. split_and!; [done|done|].
      intros _. rewrite Hline; [done|done|].
      destruct Hboard as [[? ?]|[? ?]]; lia.
  - rewrite dispatch_interval.
    destruct (bool_decide_reflect (status g = running)) as [Hst|Hst];
      [|by exists g].
    assert (cols (boardRef g) ≠ 0) as Hc.
    { intros H0. destruct (Hunsized H0). congruence. }
    assert (rows (boardRef g) ≠ 0) as Hr.
    { destruct Hboard as [[? ?]|[? ?]]; [done|lia]. }
    destruct (snakeRef g) as [|h tl] eqn:Hs; [by destruct (Hsnake Hc)|].
    destruct (tick_effects Math_random g h tl Hc Hr Hs)
      as (o & g' & -> & Hb & _ & _ & Ho).
    exists g'. split; [done|]. unfold wellFormed. rewrite Hb.
    split_and!; [done|done|]. intros _.
    destruct o.
    + destruct Ho as (_ & _ & -> & _). done.
    + destruct Ho as (_ & _ & -> & _). done.
    + destruct Ho as (_ & -> & _). by rewrite Hs.
  - destruct (handleKey_total Math_random k g)
      as (g' & Heq & Hb & _ & Hns & Hstart).
    exists g'. split; [exact Heq|].
    destruct (startKey k) eqn:Hk.
    + destruct (Hstart eq_refl) as [Hsg| ->]; [|done].
      destruct (startGame_total Math_random g)
        as (g'' & Heq' & _ & _ & Hno & Hyes & Hline).
      rewrite Hsg in Heq'. injection Heq' as <-.
      destruct (decide (cols (boardRef g) = 0)) as [Hc|Hc].
      * by rewrite (Hno Hc).
      * unfold wellFormed. rewrite Hb. split_and!; [done|done|].
        intros _. rewrite Hline; [done|done|].
        destruct Hboard as [[? ?]|[? ?]]; lia.
    + destruct (Hns eq_refl) as (Hsn & _ & Hsc & Hst & _).
      unfold wellFormed. by rewrite Hb, Hsn, Hsc, Hst.
Qed.

Lemma run_wellFormed Math_random es : ∀ g,
  wellFormed g → ∃ g', run Math_random es g = Ok tt g' ∧ wellFormed g'.
Proof.
  induction es as [|e es IH]; intros g Hg; [by exists g|].
  destruct (dispatch_wellFormed Math_random e g Hg) as (g1 & Heq & Hg1).
  rewrite run_cons, Heq. by apply IH.
Qed.

Lemma initial_wellFormed stored : wellFormed (initial stored).
Proof. split_and!; [by left|done|done]. Qed.

Lemma reachable_wellFormed Math_random g :
  reachable Math_random g → wellFormed g.
Proof.
  intros (stored & es & Hrun).
  destruct (run_wellFormed Math_random es _ (initial_wellFormed stored))
    as (g' & Heq & Hg').
  rewrite Hrun in Heq. by injection Heq as <-.
Qed.

(** After the game is over nothing moves until an event calls
    [startGame]: the interval is gone, a resize only redraws and a
    direction key only queues a direction. *)
Lemma dispatch_frozen Math_random e g :
  status g = gameover → isStart e = false →
  ∃ g', dispatch Math_random e g = Ok tt g' ∧ status g' = gameover ∧
        snakeRef g' = snakeRef g ∧ foodRef g' = foodRef g ∧
        score g' = score g.
Proof.
  intros Hst He. destruct e as [w h d| | |k]; [|done| |].
  - destruct (updateBoard_total Math_random w h d g)
      as (g' & Heq & _ & _ & Hst' & Hsc & _ & Hrun & _).
    exists g'. split; [exact Heq|].
    destruct Hrun as [-> ->]; [congruence|]. split_and!; congruence.
  - rewrite dispatch_interval, bool_decide_eq_false_2 by congruence.
    by exists g.
  - destruct (handleKey_total Math_random k g)
      as (g' & Heq & _ & _ & Hns & _).
    exists g'. split; [exact Heq|].
    destruct (Hns He) as (? & ? & ? & ? & _). split_and!; congruence.
Qed.

Lemma run_frozen Math_random es : ∀ g,
  status g = gameover → forallb (fun e => negb (isStart e)) es = true →
  ∃ g', run Math_random es g = Ok tt g' ∧ status g' = gameover ∧
        snakeRef g' = snakeRef g ∧ foodRef g' = foodRef g ∧
        score g' = score g.
Proof.
  induction es as [|e es IH]; intros g Hst Hes; [by exists g|].
  simpl in Hes. apply andb_true_iff in Hes as [He Hes].
  apply negb_true_iff in He.
  destruct (dispatch_frozen Math_random e g Hst He)
    as (g1 & Heq & Hst1 & Hs1 & Hf1 & Hsc1).
  destruct (IH g1 Hst1 Hes) as (g' & Heq' & ? & ? & ? & ?).
  exists g'. rewrite run_cons, Heq. split_and!; congruence.
Qed.

(** ** What spawnFood returns *)

Lemma spawnFood_result Math_random snake board g :
  ∃ p n,
    spawnFood Math_random snake board g = Ok p (set_entropy n g) ∧
    ((∃ i, (i < 500)%nat ∧ p = sampled Math_random board (entropy g) i ∧
           p ∉ snake) ∨
     (p = {| x := 0; y := 0 |} ∧
      ∀ j, (j < 500)%nat → sampled Math_random board (entropy g) j ∈ snake)).
Proof.
  unfold spawnFood.
  destruct (attempts_cases Math_random snake board 500 (entropy g))
    as [(i & Hi & Hbefore & Hfree)|Hall].
  - pose proof (attempts_first_free Math_random snake board 500
                  (entropy g) i g Hi Hbefore Hfree) as Heq.
    rewrite set_entropy_id in Heq. eexists _, _. split; [exact Heq|].
    left. by exists i.
  - pose proof (attempts_exhausted Math_random snake board 500
                  (entropy g) g Hall) as Heq.
    rewrite set_entropy_id in Heq. eexists _, _. split; [exact Heq|].
    by right.
Qed.

Lemma spawnFood_free Math_random snake board g p g' :
  spawnFood Math_random snake board g = Ok p g' →
  (∃ i, (i < 500)%nat ∧ sampled Math_random board (entropy g) i ∉ snake)
  ∨ {| x := 0; y := 0 |} ∉ snake →
  p ∉ snake.
Proof.
  intros Heq Hfree.
  destruct (spawnFood_result Math_random snake board g)
    as (p' & n & Heq' & Hcase).
  rewrite Heq in Heq'. injection Heq' as -> _.
  destruct Hcase as [(i & _ & _ & Hp)|[-> Hall]]; [done|].
  destruct Hfree as [(i & Hi & Hout)|Horigin]; [|done].
  by destruct (Hout (Hall i Hi)).
Qed.

Lemma randomInt_range (r : Q) (max : Z) :
  (0 <= r)%Q → (r < 1)%Q → 0 < max → 0 ≤ Qfloor (r * inject_Z max) < max.
Proof.
  intros H0 H1 Hmax.
  assert (0 < inject_Z max)%Q as HmaxQ.
  { change 0%Q with (inject_Z 0). by rewrite <-Zlt_Qlt. }
  split.
  - change 0 with (Qfloor 0). apply Qfloor_resp_le.
    apply Qmult_le_0_compat; [done|]. by apply Qlt_le_weak.
  - rewrite Zlt_Qlt. eapply Qle_lt_trans; [apply Qfloor_le|].
    rewrite <-(Qmult_1_l (inject_Z max)) at 2.
    by apply Qmult_lt_compat_r.
Qed.

Lemma sampled_inBounds Math_random board n i :
  unitInterval Math_random → 0 < cols board → 0 < rows board →
  inBounds (sampled Math_random board n i) board.
Proof.
  intros Hunit Hc Hr. unfold inBounds, sampled. simpl.
  split; apply randomInt_range; try done; apply Hunit.
Qed.

Lemma spawnFood_inBounds Math_random snake board g p g' :
  unitInterval Math_random → 0 < cols board → 0 < rows board →
  spawnFood Math_random snake board g = Ok p g' → inBounds p board.
Proof.
  intros Hunit Hc Hr Heq.
  destruct (spawnFood_result Math_random snake board g)
    as (p' & n & Heq' & Hcase).
  rewrite Heq in Heq'. injection Heq' as -> _.
  destruct Hcase as [(i & _ & -> & _)|[-> _]].
  - by apply sampled_inBounds.
  - unfold inBounds. simpl. lia.
Qed.

(** On a board of at least two rows the snake a reset lays down stays
    clear of the fallback cell. *)
Lemma origin_off_startSnake board :
  2 ≤ rows board → {| x := 0; y := 0 |} ∉ startSnake board.
Proof.
  intros Hr Hin. unfold startSnake in Hin.
  assert (rows board `div` 2 ≠ 0) as Hy.
  { intros H0. apply Z.div_small_iff in H0; lia. }
  repeat (apply elem_of_cons in Hin as [[= ? ?]|Hin]; [done|]).
  by apply elem_of_nil in Hin.
Qed.

(** * The claims *)

(** ** Collision (C1) *)

(** C1. On a sized board and a non-empty snake a tick returns an outcome,
    and that outcome is [Died] exactly when the cell in front of the head,
    in the pending direction that the tick commits, lies outside the board
    or on a segment of the snake as it is before the move.  The tail counts:
    stepping onto the current last segment is fatal although a move without
    growth would have vacated it. *)
Theorem tick_died_iff Math_random g h tl :
  cols (boardRef g) ≠ 0 → rows (boardRef g) ≠ 0 →
  snakeRef g = h :: tl →
  let next := nextCell h (pendingDirectionRef g) in
  ∃ outcome g',
    tick Math_random g = Ok (Some outcome) g' ∧
    (outcome = Died ↔ ¬ inBounds next (boardRef g) ∨ next ∈ snakeRef g) ∧
    (last (snakeRef g) = Some next → outcome = Died).
Proof.
  intros Hc Hr Hs next.
  destruct (tick_effects Math_random g h tl Hc Hr Hs)
    as (o & g' & Htick & _ & _ & _ & Ho).
  fold next in Ho. exists o, g'. split; [exact Htick|].
  assert (o = Died ↔ collision next (boardRef g) (snakeRef g) = true) as Hiff.
  { destruct o; destruct Ho as [Hcol _]; rewrite Hcol; split; congruence. }
  split.
  - by rewrite Hiff, collision_spec.
  - intros Hlast. apply Hiff, collision_spec. right.
    apply list_elem_of_lookup. exists (pred (length (snakeRef g))).
    by rewrite <-last_lookup.
Qed.

Lemma tick_died_iff_witness :
  ∃ outcome g',
    tick demoRandom curledGame = Ok (Some outcome) g' ∧
    (outcome = Died ↔
       ¬ inBounds (nextCell {| x := 1; y := 1 |} right) board12 ∨
       nextCell {| x := 1; y := 1 |} right ∈ snakeRef curledGame) ∧
    (last (snakeRef curledGame) = Some (nextCell {| x := 1; y := 1 |} right) →
     outcome = Died).
Proof.
  apply (tick_died_iff demoRandom curledGame {| x := 1; y := 1 |}
           [ {| x := 1; y := 2 |}; {| x := 2; y := 2 |}; {| x := 2; y := 1 |} ]).
  - vm_compute. lia.
  - vm_compute. lia.
  - reflexivity.
Defined.

(** ** Movement (C2) *)

(** C2. On a sized board and a non-empty snake a tick returns an outcome;
    when it is not [Died] the new head is the old head plus the unit vector
    of the pending direction, and either that cell is the food, the outcome
    is [Ate] and the snake is the new head in front of the whole old snake
    (one longer), or it is not the food, the outcome is [Moved] and the
    snake is the new head in front of the old snake without its last
    segment (same length). *)
Theorem tick_moved_or_ate Math_random g h tl :
  cols (boardRef g) ≠ 0 → rows (boardRef g) ≠ 0 →
  snakeRef g = h :: tl →
  let next :=
    {| x := x h + x (directionVectors (pendingDirectionRef g));
       y := y h + y (directionVectors (pendingDirectionRef g)) |} in
  ∃ outcome g',
    tick Math_random g = Ok (Some outcome) g' ∧
    (outcome ≠ Died →
     head (snakeRef g') = Some next ∧
     (next = foodRef g →
      outcome = Ate ∧ snakeRef g' = next :: snakeRef g ∧
      length (snakeRef g') = S (length (snakeRef g))) ∧
     (next ≠ foodRef g →
      outcome = Moved ∧ snakeRef g' = next :: removelast (snakeRef g) ∧
      length (snakeRef g') = length (snakeRef g))).
Proof.
  intros Hc Hr Hs next.
  destruct (tick_effects Math_random g h tl Hc Hr Hs)
    as (o & g' & Htick & _ & _ & _ & Ho).
  change (nextCell h (pendingDirectionRef g)) with next in Ho.
  exists o, g'. split; [exact Htick|]. intros Halive.
  assert (length (removelast (snakeRef g)) = pred (length (snakeRef g)))
    as Hlen.
  { rewrite removelast_firstn_len, length_take. lia. }
  destruct o; [| |done].
  - destruct Ho as (_ & Hne & -> & _). split_and!; [done|done|].
    intros _. split_and!; [done|done|]. simpl. rewrite Hlen, Hs. done.
  - destruct Ho as (_ & Heq & -> & _). split_and!; [done| |done].
    intros _. by split_and!.
Qed.

Lemma tick_moved_or_ate_witness :
  ∃ outcome g',
    tick demoRandom scenarioGame = Ok (Some outcome) g' ∧
    (outcome ≠ Died →
     head (snakeRef g') = Some {| x := 7; y := 6 |} ∧
     ({| x := 7; y := 6 |} = foodRef scenarioGame →
      outcome = Ate ∧
      snakeRef g' = {| x := 7; y := 6 |} :: snakeRef scenarioGame ∧
      length (snakeRef g') = S (length (snakeRef scenarioGame))) ∧
     ({| x := 7; y := 6 |} ≠ foodRef scenarioGame →
      outcome = Moved ∧
      snakeRef g' = {| x := 7; y := 6 |} :: removelast (snakeRef scenarioGame) ∧
      length (snakeRef g') = length (snakeRef scenarioGame))).
Proof.
  apply (tick_moved_or_ate demoRandom scenarioGame {| x := 6; y := 6 |}
           [ {| x := 5; y := 6 |}; {| x := 4; y := 6 |} ]).
  - vm_compute. lia.
  - vm_compute. lia.
  - reflexivity.
Defined.

(** ** The direction gate (C3) *)

(** C3. A request for direction [candidate] never fails.  When the
    candidate is the opposite of the committed direction [directionRef] the
    state is left exactly as it was; otherwise the only change is that
    [pendingDirectionRef] becomes the candidate.  The pending direction
    plays no part in the test.  A key press that decodes to a direction is
    such a request. *)
Theorem requestDirection_gate candidate g :
  (candidate = opposite (directionRef g) →
   requestDirection candidate g = Ok tt g) ∧
  (candidate ≠ opposite (directionRef g) →
   requestDirection candidate g = Ok tt (set_pendingDirectionRef candidate g)) ∧
  (∀ Math_random k, controls !! toLowerCase k = Some candidate →
   handleKey Math_random k g = requestDirection candidate g).
Proof.
  unfold requestDirection. run_M. rewrite directionGate_spec. split_and!.
  - intros Heq. by rewrite bool_decide_eq_true_2.
  - intros Hne. by rewrite bool_decide_eq_false_2.
  - intros Math_random k Hk. rewrite (handleKey_direction _ _ _ _ Hk).
    unfold requestDirection. run_M. by rewrite directionGate_spec.
Qed.

(** The gate looks at the committed direction only: heading right with
    [up] queued, [down] is accepted and [left] is dropped. *)
Example gate_ignores_pending :
  let g := set_pendingDirectionRef up scenarioGame in
  handleKey demoRandom "ArrowDown" g = Ok tt (set_pendingDirectionRef down g) ∧
  handleKey demoRandom "a" g = Ok tt g.
Proof. by vm_compute. Qed.

(** ** Direction commitment (C10) *)

(** C10. On a sized board every tick, whatever becomes of it, leaves the
    committed direction equal to the direction that was pending when it
    started, and does not touch the pending direction.  In particular a
    tick that runs into a wall or into the snake returns [Died] with the
    direction committed and the snake, the food and the score as they
    were. *)
Theorem tick_commits_pending Math_random g :
  cols (boardRef g) ≠ 0 → rows (boardRef g) ≠ 0 →
  directionRef (final (tick Math_random g)) = pendingDirectionRef g ∧
  pendingDirectionRef (final (tick Math_random g)) = pendingDirectionRef g ∧
  (∀ h tl, snakeRef g = h :: tl →
     collision (nextCell h (pendingDirectionRef g)) (boardRef g) (snakeRef g)
       = true →
     ∃ g', tick Math_random g = Ok (Some Died) g' ∧
           directionRef g' = pendingDirectionRef g ∧
           snakeRef g' = snakeRef g ∧ foodRef g' = foodRef g ∧
           score g' = score g).
Proof.
  intros Hc Hr.
  destruct (snakeRef g) as [|h tl] eqn:Hs.
  { rewrite tick_empty by done. by split_and!. }
  destruct (tick_effects Math_random g h tl Hc Hr Hs)
    as (o & g' & Htick & _ & Hd & Hp & Ho).
  rewrite Htick. simpl. split_and!; [done|done|].
  intros h' tl' [= <- <-] Hcol. rewrite <-Hs in Hcol.
  destruct o; destruct Ho as (Hcol' & Ho); [congruence|congruence|].
  exists g'. destruct Ho as (Hsn & ? & ? & _). rewrite <-Hs. by split_and!.
Qed.

Lemma tick_commits_pending_witness :
  directionRef curledGame = up ∧
  directionRef (final (tick demoRandom curledGame)) = right ∧
  pendingDirectionRef (final (tick demoRandom curledGame)) = right ∧
  (∀ h tl, snakeRef curledGame = h :: tl →
     collision (nextCell h right) board12 (snakeRef curledGame) = true →
     ∃ g', tick demoRandom curledGame = Ok (Some Died) g' ∧
           directionRef g' = right ∧
           snakeRef g' = snakeRef curledGame ∧
           foodRef g' = foodRef curledGame ∧
           score g' = score curledGame).
Proof.
  split; [reflexivity|].
  apply (tick_commits_pending demoRandom curledGame).
  - vm_compute. lia.
  - vm_compute. lia.
Defined.

(** ** Death (C8) *)

Lemma tick_died_inv Math_random g g' :
  tick Math_random g = Ok (Some Died) g' →
  g' = setStatus gameover (set_directionRef (pendingDirectionRef g) g).
Proof.
  intros Htick.
  destruct (decide (cols (boardRef g) = 0)) as [Hc|Hc].
  { by rewrite tick_unsized in Htick by (by left). }
  destruct (decide (rows (boardRef g) = 0)) as [Hr|Hr].
  { by rewrite tick_unsized in Htick by (by right). }
  destruct (snakeRef g) as [|h tl] eqn:Hs.
  { by rewrite tick_empty in Htick. }
  pose proof (tick_sized Math_random g h tl Hc Hr Hs) as Hcase.
  simpl in Hcase.
  destruct (collision _ _ _); [congruence|].
  destruct (bool_decide _).
  - destruct Hcase as (? & ? & _ & Heq). congruence.
  - congruence.
Qed.

(** C8. A tick whose outcome is [Died] changes the status to [gameover]
    and commits the pending direction, and nothing else: score, snake and
    food are what they were.  From then on, whatever events arrive, they
    stay so and the status stays [gameover] until one of the events calls
    [startGame]. *)
Theorem died_freezes Math_random g g' :
  tick Math_random g = Ok (Some Died) g' →
  g' = setStatus gameover (set_directionRef (pendingDirectionRef g) g) ∧
  score g' = score g ∧ snakeRef g' = snakeRef g ∧ foodRef g' = foodRef g ∧
  status g' = gameover ∧
  (∀ es, forallb (fun e => negb (isStart e)) es = true →
     ∃ g'', run Math_random es g' = Ok tt g'' ∧ status g'' = gameover ∧
            score g'' = score g ∧ snakeRef g'' = snakeRef g ∧
            foodRef g'' = foodRef g).
Proof.
  intros Htick. apply tick_died_inv in Htick. subst g'.
  split_and!; try done.
  intros es Hes.
  destruct (run_frozen Math_random es _ (eq_refl : status (setStatus gameover
              (set_directionRef (pendingDirectionRef g) g)) = gameover) Hes)
    as (g'' & Hrun & ? & ? & ? & ?).
  exists g''. by split_and!.
Qed.

Lemma died_freezes_witness :
  let g' := setStatus gameover (set_directionRef left wallGame) in
  g' = setStatus gameover (set_directionRef left wallGame) ∧
  score g' = 0 ∧ snakeRef g' = snakeRef wallGame ∧
  foodRef g' = foodRef wallGame ∧ status g' = gameover ∧
  (∀ es, forallb (fun e => negb (isStart e)) es = true →
     ∃ g'', run demoRandom es g' = Ok tt g'' ∧ status g'' = gameover ∧
            score g'' = 0 ∧ snakeRef g'' = snakeRef wallGame ∧
            foodRef g'' = foodRef wallGame).
Proof.
  apply (died_freezes demoRandom wallGame). vm_compute. reflexivity.
Defined.

(** ** Scores (C7) *)


(** The scenario of the spec, run: the tick eats and the score is 1. *)
Example scenario_ate :
  ∃ g', tick demoRandom scenarioGame = Ok (Some Ate) g' ∧
        snakeRef g' = [ {| x := 7; y := 6 |}; {| x := 6; y := 6 |};
                        {| x := 5; y := 6 |}; {| x := 4; y := 6 |} ] ∧
        score g' = 1 ∧ highScore g' = 1.
Proof. eexists. split; [by vm_compute|]. by split_and!. Qed.

Example scenario_wall :
  tick demoRandom wallGame
  = Ok (Some Died) (setStatus gameover wallGame).
Proof. by vm_compute. Qed.

(** ** Starting a game (C6) *)

(** C6. In every state the page can reach, [startGame] does nothing while
    the board is unsized ([cols = 0]); once it is sized it returns a state
    whose score is 0, whose snake is the three cells
    [(cols/2, rows/2)], [(cols/2 - 1, rows/2)], [(cols/2 - 2, rows/2)],
    head first, whose committed and pending directions are both [right],
    whose food is the point [spawnFood] returned for that snake and board,
    and whose status is [running]. *)
Theorem startGame_spec Math_random g :
  reachable Math_random g →
  (cols (boardRef g) = 0 → startGame Math_random g = Ok tt g) ∧
  (cols (boardRef g) ≠ 0 →
   let board := boardRef g in
   let line :=
     [ {| x := cols board `div` 2; y := rows board `div` 2 |};
       {| x := cols board `div` 2 - 1; y := rows board `div` 2 |};
       {| x := cols board `div` 2 - 2; y := rows board `div` 2 |} ] in
   let laid :=
     set_pendingDirectionRef right
       (set_directionRef right (set_snakeRef line (setScore (fun _ => 0) g))) in
   ∃ food n g',
     spawnFood Math_random line board laid = Ok food (set_entropy n laid) ∧
     startGame Math_random g = Ok tt g' ∧
     g' = setStatus running (set_foodRef food (set_entropy n laid)) ∧
     score g' = 0 ∧ snakeRef g' = line ∧
     directionRef g' = right ∧ pendingDirectionRef g' = right ∧
     foodRef g' = food ∧ status g' = running ∧
     boardRef g' = board ∧ highScore g' = highScore g).
Proof.
  intros Hg. apply reachable_wellFormed in Hg as (Hboard & _ & _).
  split.
  - apply startGame_unsized.
  - intros Hc board line laid.
    assert (rows (boardRef g) ≠ 0) as Hr.
    { destruct Hboard as [[? ?]|[? ?]]; [done|lia]. }
    destruct (startGame_sized Math_random g Hc Hr) as (food & n & Hsp & Heq).
    exists food, n, (setStatus running (set_foodRef food (set_entropy n laid))).
    by split_and!.
Qed.

Lemma demoGame_reachable : reachable demoRandom demoGame.
Proof. exists 3, demoEvents. by vm_compute. Qed.

Lemma startGame_spec_witness :
  (cols (boardRef demoGame) = 0 → startGame demoRandom demoGame = Ok tt demoGame) ∧
  (cols (boardRef demoGame) ≠ 0 →
   let line := [ {| x := 14; y := 10 |}; {| x := 13; y := 10 |};
                 {| x := 12; y := 10 |} ] in
   let laid :=
     set_pendingDirectionRef right
       (set_directionRef right
          (set_snakeRef line (setScore (fun _ => 0) demoGame))) in
   ∃ food n g',
     spawnFood demoRandom line (boardRef demoGame) laid
       = Ok food (set_entropy n laid) ∧
     startGame demoRandom demoGame = Ok tt g' ∧
     g' = setStatus running (set_foodRef food (set_entropy n laid)) ∧
     score g' = 0 ∧ snakeRef g' = line ∧
     directionRef g' = right ∧ pendingDirectionRef g' = right ∧
     foodRef g' = food ∧ status g' = running ∧
     boardRef g' = boardRef demoGame ∧ highScore g' = highScore demoGame).
Proof.
  apply (startGame_spec demoRandom demoGame).
  exists 3, demoEvents. vm_compute. reflexivity.
Defined.

(** ** Food placement (C9, C4) *)






(** ** No exceptions (C5) *)


(** What the hypothesis on the snake rules out: on a sized board a tick on
    an empty snake reads [head.x] of [undefined]. *)
Example tick_empty_snake_throws :
  tick demoRandom (set_snakeRef [] scenarioGame)
  = TypeError (set_snakeRef [] scenarioGame).
Proof. by vm_compute. Qed.

(** * Further properties of the code *)

(** X1. Two cells share a key of the [occupied] set only if they are the
    same cell: the string [x-y] determines the integers [x] and [y], also
    when one of them is negative. *)
Theorem cellKey_injective a b a' b' :
  cellKey a b = cellKey a' b' → {| x := a; y := b |} = {| x := a'; y := b' |}.
Proof. intros Heq. by destruct (cellKey_inj _ _ _ _ Heq) as [-> ->]. Qed.

Lemma cellKey_injective_witness :
  {| x := -1; y := 11 |} = {| x := 0 - 1; y := 10 + 1 |}.
Proof. apply (cellKey_injective (-1) 11 (0 - 1) (10 + 1)). reflexivity. Defined.

(** X2. [updateBoard] always stores a board of at least 12 columns and 12
    rows, with a cell size between 14 and 26 and pixel dimensions that are
    the grid dimensions times the cell size; it changes neither the status
    nor the scores. *)
Theorem updateBoard_board Math_random w h d g :
  ∃ g', updateBoard Math_random w h d g = Ok tt g' ∧
        12 ≤ cols (boardRef g') ∧ 12 ≤ rows (boardRef g') ∧
        14 ≤ cell (boardRef g') ≤ 26 ∧
        width (boardRef g') = cols (boardRef g') * cell (boardRef g') ∧
        height (boardRef g') = rows (boardRef g') * cell (boardRef g') ∧
        status g' = status g ∧ score g' = score g ∧
        highScore g' = highScore g.
Proof.
  pose proof (computeBoard_spec w h d) as Hboard.
  unfold updateBoard. set (board := computeBoard w h d) in *.
  unfold mbind, M_bind, reads, modify, draw, mret, M_ret.
  change (status (set_boardRef board g)) with (status g).
  destruct (bool_decide (status g = ready)).
  - destruct (resetSnake_total Math_random (set_boardRef board g))
      as (g' & Heq & Hb & ? & ? & ? & _).
    exists g'. split; [exact Heq|]. rewrite Hb.
    change (boardRef (set_boardRef board g)) with board.
    destruct Hboard as (? & ? & [? ?] & ? & ?). by split_and!.
  - eexists. split; [reflexivity|].
    change (boardRef (set_boardRef board g)) with board.
    destruct Hboard as (? & ? & [? ?] & ? & ?). by split_and!.
Qed.

(** X3. Every state the page can reach has a board that is either unsized
    or at least 12 by 12, has status [ready] and score 0 while the board is
    unsized, and has a non-empty snake once the board is sized. *)
Theorem reachable_invariant Math_random g :
  reachable Math_random g →
  sizedOrNot (boardRef g) ∧
  (cols (boardRef g) = 0 → status g = ready ∧ score g = 0) ∧
  (cols (boardRef g) ≠ 0 → snakeRef g ≠ []).
Proof. apply reachable_wellFormed. Qed.

Lemma reachable_invariant_witness :
  sizedOrNot (boardRef demoGame) ∧
  (cols (boardRef demoGame) = 0 → status demoGame = ready ∧ score demoGame = 0) ∧
  (cols (boardRef demoGame) ≠ 0 → snakeRef demoGame ≠ []).
Proof.
  apply (reachable_invariant demoRandom demoGame).
  exists 3, demoEvents. vm_compute. reflexivity.
Defined.

(** X4. The guards of [startGame] and [resetSnake] differ: on a board with
    columns but no rows (one that [updateBoard] never produces)
    [startGame] sets the score to 0 and the status to [running] and leaves
    the snake, the directions and the food as they were. *)
Theorem startGame_without_rows Math_random g :
  cols (boardRef g) ≠ 0 → rows (boardRef g) = 0 →
  startGame Math_random g = Ok tt (setStatus running (setScore (fun _ => 0) g)).
Proof. apply startGame_half_sized. Qed.

Lemma startGame_without_rows_witness :
  startGame demoRandom (set_boardRef (mkBoard 12 0 14 168 0 1) (initial 7))
  = Ok tt (setStatus running
             (setScore (fun _ => 0)
                (set_boardRef (mkBoard 12 0 14 168 0 1) (initial 7)))).
Proof.
  apply (startGame_without_rows demoRandom
           (set_boardRef (mkBoard 12 0 14 168 0 1) (initial 7))).
  - vm_compute. lia.
  - reflexivity.
Defined.

(** X5. On a sized board a tick on an empty snake throws, after it has
    committed the pending direction. *)
Theorem tick_on_empty_snake Math_random g :
  cols (boardRef g) ≠ 0 → rows (boardRef g) ≠ 0 → snakeRef g = [] →
  tick Math_random g = TypeError (set_directionRef (pendingDirectionRef g) g).
Proof. apply tick_empty. Qed.

Lemma tick_on_empty_snake_witness :
  tick demoRandom (set_snakeRef [] curledGame)
  = TypeError (set_directionRef right (set_snakeRef [] curledGame)).
Proof.
  apply (tick_on_empty_snake demoRandom (set_snakeRef [] curledGame)).
  - vm_compute. lia.
  - vm_compute. lia.
  - reflexivity.
Defined.

(** ** The stored high score *)













(** What [parseInt] makes of text that is not a number, and of a number
    followed by text. *)
Example parseInt_edges :
  parseInt "" = None ∧ parseInt "abc" = None ∧ parseInt "-" = None ∧
  parseInt "12abc" = Some 12 ∧ parseInt "+7" = Some 7 ∧
  parseInt "007" = Some 7.
Proof. by vm_compute. Qed.


(** ** clamp and randomInt *)

(** X8. With [min <= max], [clamp] returns a value between [min] and [max],
    which is the argument itself when that lies between them and the nearer
    bound otherwise; with the bounds the wrong way round it returns
    [max]. *)
Theorem clamp_bounds value min max :
  (min ≤ max →
   min ≤ clamp value min max ≤ max ∧
   (min ≤ value ≤ max → clamp value min max = value) ∧
   (value ≤ min → clamp value min max = min) ∧
   (max ≤ value → clamp value min max = max)) ∧
  (max < min → clamp value min max = max).
Proof. unfold clamp. lia. Qed.


(** ** The shape of the snake along a run *)

Lemma opposite_ne d : d ≠ opposite d.
Proof. by destruct d. Qed.

Lemma adjacent_nextCell h d : adjacent (nextCell h d) h.
Proof. unfold adjacent, nextCell. destruct d; simpl; lia. Qed.


Lemma removelast_sublist {A} (l : list A) : removelast l `sublist_of` l.
Proof. rewrite removelast_firstn_len. apply sublist_take. Qed.

Lemma elem_of_removelast {A} (a : A) (l : list A) :
  a ∈ removelast l → a ∈ l.
Proof. rewrite removelast_firstn_len. apply subseteq_take. Qed.

Lemma chain_removelast snake : chain snake → chain (removelast snake).
Proof.
  induction snake as [|p [|q rest] IH]; [done|done|].
  intros [Hpq Hrest]. specialize (IH Hrest).
  change (removelast (p :: q :: rest)) with (p :: removelast (q :: rest)).
  destruct rest as [|r rest]; [done|].
  change (removelast (q :: r :: rest)) with (q :: removelast (r :: rest)) in *.
  by split.
Qed.

Lemma startSnake_shape board :
  NoDup (startSnake board) ∧ chain (startSnake board) ∧
  length (startSnake board) = 3%nat ∧
  ∀ h n tl, startSnake board = h :: n :: tl → h = nextCell n right.
Proof.
  unfold startSnake. split_and!.
  - apply NoDup_cons. split.
    { rewrite !not_elem_of_cons.
      split_and!; [| |apply not_elem_of_nil];
        intros Heq; injection Heq; intros; lia. }
    apply NoDup_cons. split; [|apply NoDup_singleton].
    rewrite !not_elem_of_cons.
    split; [|apply not_elem_of_nil]. intros Heq; injection Heq; intros; lia.
  - unfold chain, adjacent. simpl. lia.
  - done.
  - intros h n tl [= <- <- _]. unfold nextCell. simpl. f_equal; lia.
Qed.

Lemma shaped_after_reset g board :
  snakeRef g = startSnake board → directionRef g = right →
  pendingDirectionRef g = right → score g = 0 → shaped g.
Proof.
  intros Hs Hd Hp Hsc.
  destruct (startSnake_shape board) as (Hnd & Hch & Hlen & Hneck).
  unfold shaped. rewrite Hs, Hd, Hp, Hsc, Hlen. split_and!; try done; lia.
Qed.

Lemma updateBoard_ready Math_random w h d g :
  status g = ready →
  let board := computeBoard w h d in
  let laid :=
    set_pendingDirectionRef right
      (set_directionRef right
         (set_snakeRef (startSnake board) (set_boardRef board g))) in
  ∃ food n,
    updateBoard Math_random w h d g
    = Ok tt (set_foodRef food (set_entropy n laid)).
Proof.
  intros Hst board laid.
  pose proof (computeBoard_spec w h d) as (Hc & Hr & _).
  destruct (resetSnake_sized Math_random (set_boardRef board g))
    as (food & n & _ & Heq).
  { change (cols board ≠ 0). subst board. lia. }
  { change (rows board ≠ 0). subst board. lia. }
  exists food, n. unfold updateBoard.
  unfold mbind, M_bind, reads, modify.
  change (status (set_boardRef (computeBoard w h d) g)) with (status g).
  by rewrite bool_decide_eq_true_2.
Qed.

Lemma updateBoard_started Math_random w h d g :
  status g ≠ ready →
  updateBoard Math_random w h d g
  = Ok tt (set_boardRef (computeBoard w h d) g).
Proof.
  intros Hst. unfold updateBoard.
  unfold mbind, M_bind, reads, modify.
  change (status (set_boardRef (computeBoard w h d) g)) with (status g).
  by rewrite bool_decide_eq_false_2.
Qed.

Lemma startGame_shaped Math_random g :
  wellFormed g → shaped g →
  ∃ g', startGame Math_random g = Ok tt g' ∧ shaped g'.
Proof.
  intros (Hboard & _ & _) Hshaped.
  destruct (decide (cols (boardRef g) = 0)) as [Hc|Hc].
  { exists g. by rewrite startGame_unsized. }
  assert (rows (boardRef g) ≠ 0) as Hr.
  { destruct Hboard as [[? ?]|[? ?]]; [done|lia]. }
  destruct (startGame_sized Math_random g Hc Hr) as (food & n & _ & Heq).
  eexists. split; [exact Heq|].
  by apply (shaped_after_reset _ (boardRef g)).
Qed.

Lemma tick_shaped Math_random g :
  wellFormed g → shaped g → status g = running →
  ∃ o g', tick Math_random g = Ok o g' ∧ shaped g'.
Proof.
  intros (Hboard & Hunsized & Hsnake)
         (Hnd & Hch & Hlen & Hopp & Hneck & Hready & Hpos & Hhi) Hst.
  assert (cols (boardRef g) ≠ 0) as Hc.
  { intros H0. destruct (Hunsized H0). congruence. }
  assert (rows (boardRef g) ≠ 0) as Hr.
  { destruct Hboard as [[? ?]|[? ?]]; [done|lia]. }
  destruct (snakeRef g) as [|h tl] eqn:Hs; [by destruct (Hsnake Hc)|].
  destruct (tick_effects Math_random g h tl Hc Hr Hs)
    as (o & g' & Htick & Hb & Hd & Hp & Ho).
  exists (Some o), g'. split; [exact Htick|].
  set (next := nextCell h (pendingDirectionRef g)) in *.
  unfold shaped. rewrite Hb, Hd, Hp.
  assert (collision next (boardRef g) (snakeRef g) = false → next ∉ snakeRef g)
    as Hfree.
  { intros Hcol Hin.
    assert (collision next (boardRef g) (snakeRef g) = true) as Hcol'
      by (apply collision_spec; by right).
    congruence. }
  rewrite <-Hs in Hnd, Hch, Hlen.
  destruct o.
  - destruct Ho as (Hcol & _ & Hsn & _ & Hsc & Hhs & Hst' & _).
    rewrite Hsn, Hsc, Hhs, Hst'. split_and!.
    + apply NoDup_cons. split.
      * intros Hin. by apply (Hfree Hcol), elem_of_removelast.
      * eapply sublist_NoDup; [exact Hnd|apply removelast_sublist].
    + rewrite Hs. destruct tl as [|q tl]; [done|].
      change (removelast (h :: q :: tl)) with (h :: removelast (q :: tl)).
      split; [apply adjacent_nextCell|].
      change (h :: removelast (q :: tl)) with (removelast (h :: q :: tl)).
      apply chain_removelast. by rewrite <-Hs.
    + intros _. rewrite <-(Hlen Hc). simpl.
      rewrite removelast_firstn_len, length_take, Hs. simpl. lia.
    + apply opposite_ne.
    + intros _ h' n' tl'. rewrite Hs.
      destruct tl as [|q tl]; [done|].
      change (removelast (h :: q :: tl)) with (h :: removelast (q :: tl)).
      by intros [= <- <- _].
    + congruence.
    + done.
    + done.
  - destruct Ho as (Hcol & _ & Hsn & Hsc & Hhs & Hst').
    rewrite Hsn, Hsc, Hhs, Hst'. split_and!.
    + apply NoDup_cons. split; [by apply Hfree|done].
    + rewrite Hs. split; [apply adjacent_nextCell|by rewrite <-Hs].
    + intros _. specialize (Hlen Hc). simpl length. lia.
    + apply opposite_ne.
    + intros _ h' n' tl'. rewrite Hs. by intros [= <- <- _].
    + congruence.
    + lia.
    + lia.
  - destruct Ho as (_ & Hsn & _ & Hsc & Hhs & Hst' & _).
    rewrite Hsn, Hsc, Hhs, Hst'. split_and!; try done.
    apply opposite_ne.
Qed.

Lemma dispatch_shaped Math_random e g :
  wellFormed g → shaped g →
  ∃ g', dispatch Math_random e g = Ok tt g' ∧ shaped g'.
Proof.
  intros Hwf Hshaped.
  pose proof Hwf as (Hboard & Hunsized & Hsnake).
  pose proof Hshaped as (Hnd & Hch & Hlen & Hopp & Hneck & Hready & Hpos & Hhi).
  destruct e as [w h d| | |k].
  - destruct (decide (status g = ready)) as [Hst|Hst].
    + destruct (updateBoard_ready Math_random w h d g Hst) as (food & n & Heq).
      eexists. split; [exact Heq|].
      apply (shaped_after_reset _ (computeBoard w h d)); try done.
      by apply Hready.
    + exists (set_boardRef (computeBoard w h d) g).
      split; [by apply updateBoard_started|].
      unfold shaped. simpl. split_and!; try done.
      intros _. apply Hlen. intros H0. by destruct (Hunsized H0).
  - by apply startGame_shaped.
  - rewrite dispatch_interval.
    destruct (bool_decide_reflect (status g = running)) as [Hst|Hst];
      [|by exists g].
    destruct (tick_shaped Math_random g Hwf Hshaped Hst)
      as (o & g' & -> & Hg').
    by exists g'.
  - change (dispatch Math_random (KeyDown k) g)
      with (handleKey Math_random k g).
    destruct (startKey k) eqn:Hk.
    + destruct (handleKey_start Math_random k g Hk) as [->|[_ ->]];
        [by apply startGame_shaped|by exists g].
    + destruct (controls !! toLowerCase k) as [c|] eqn:Hc.
      * rewrite (handleKey_direction _ _ _ _ Hc).
        unfold requestDirection, mbind, M_bind, reads.
        rewrite directionGate_spec. eexists. split; [reflexivity|].
        destruct (bool_decide_reflect (c = opposite (directionRef g)));
          [done|].
        unfold shaped. simpl. by split_and!.
      * exists g. by rewrite handleKey_other.
Qed.

Lemma run_shaped Math_random es : ∀ g,
  wellFormed g → shaped g →
  ∃ g', run Math_random es g = Ok tt g' ∧ wellFormed g' ∧ shaped g'.
Proof.
  induction es as [|e es IH]; intros g Hwf Hsh; [by exists g|].
  destruct (dispatch_wellFormed Math_random e g Hwf) as (g1 & Heq & Hwf1).
  destruct (dispatch_shaped Math_random e g Hwf Hsh) as (g1' & Heq' & Hsh1).
  rewrite Heq in Heq'. injection Heq' as <-.
  rewrite run_cons, Heq. by apply IH.
Qed.

Lemma initial_shaped stored : shaped (initial stored).
Proof.
  unfold shaped, initial. simpl. split_and!; try done.
  - apply NoDup_nil_2.
  - lia.
Qed.

Lemma reachable_shaped Math_random g : reachable Math_random g → shaped g.
Proof.
  intros (stored & es & Hrun).
  destruct (run_shaped Math_random es _ (initial_wellFormed stored)
              (initial_shaped stored)) as (g' & Heq & _ & Hg').
  rewrite Hrun in Heq. by injection Heq as <-.
Qed.

(** X10. In every state the page can reach the snake never overlaps itself
    and never breaks: its cells are pairwise distinct and each segment is
    one step, horizontally or vertically, from the next. *)
Theorem snake_stays_a_path Math_random g :
  reachable Math_random g → NoDup (snakeRef g) ∧ chain (snakeRef g).
Proof.
  intros Hg. apply reachable_shaped in Hg as (Hnd & Hch & _). by split.
Qed.

Lemma snake_stays_a_path_witness :
  NoDup (snakeRef demoGame) ∧ chain (snakeRef demoGame).
Proof.
  apply (snake_stays_a_path demoRandom demoGame).
  exists 3, demoEvents. vm_compute. reflexivity.
Defined.

(** X11. In every reachable state with a sized board the length of the
    snake is 3 plus the score: the snake grows by exactly the pellets
    counted. *)
Theorem snake_length_is_score Math_random g :
  reachable Math_random g → cols (boardRef g) ≠ 0 →
  Z.of_nat (length (snakeRef g)) = 3 + score g.
Proof.
  intros Hg Hc. apply reachable_shaped in Hg as (_ & _ & Hlen & _).
  by apply Hlen.
Qed.

Lemma snake_length_is_score_witness :
  Z.of_nat (length (snakeRef demoGame)) = 3 + score demoGame.
Proof.
  apply (snake_length_is_score demoRandom demoGame).
  - exists 3, demoEvents. vm_compute. reflexivity.
  - vm_compute. lia.
Defined.



(** X13. Along every run from a fresh mount the score is never negative
    and never above the high score, unless the stored high score was
    negative and has not been beaten yet; and the high score never falls
    below the stored one. *)
Theorem score_within_highScore Math_random stored es g :
  run Math_random es (initial stored) = Ok tt g →
  0 ≤ score g ∧ score g ≤ Z.max 0 (highScore g) ∧ stored ≤ highScore g ∧
  (0 ≤ stored → score g ≤ highScore g).
Proof.
  intros Hrun.
  assert (reachable Math_random g) as Hg by (by exists stored, es).
  apply reachable_shaped in Hg as (_ & _ & _ & _ & _ & _ & Hpos & Hhi).
  pose proof (run_highScore Math_random es (initial stored)) as Hmono.
  rewrite Hrun in Hmono. simpl in Hmono. lia.
Qed.

Lemma score_within_highScore_witness :
  0 ≤ score demoGame ∧ score demoGame ≤ Z.max 0 (highScore demoGame) ∧
  3 ≤ highScore demoGame ∧ (0 ≤ 3 → score demoGame ≤ highScore demoGame).
Proof.
  apply (score_within_highScore demoRandom 3 demoEvents demoGame).
  vm_compute. reflexivity.
Defined.

(** ** The status *)

Lemma tick_status Math_random g :
  status (final (tick Math_random g)) = status g ∨
  status (final (tick Math_random g)) = gameover.
Proof.
  destruct (decide (cols (boardRef g) = 0)) as [Hc|Hc].
  { left. by rewrite tick_unsized by (by left). }
  destruct (decide (rows (boardRef g) = 0)) as [Hr|Hr].
  { left. by rewrite tick_unsized by (by right). }
  destruct (snakeRef g) as [|h tl] eqn:Hs.
  { left. by rewrite tick_empty. }
  destruct (tick_effects Math_random g h tl Hc Hr Hs)
    as (o & g' & -> & _ & _ & _ & Ho).
  simpl. destruct o.
  - left. by destruct Ho as (_ & _ & _ & _ & _ & _ & ? & _).
  - left. by destruct Ho as (_ & _ & _ & _ & _ & ?).
  - right. by destruct Ho as (_ & _ & _ & _ & _ & ? & _).
Qed.

Lemma dispatch_status Math_random e g :
  status (final (dispatch Math_random e g)) = status g ∨
  (isStart e = true ∧ cols (boardRef g) ≠ 0 ∧
   status (final (dispatch Math_random e g)) = running) ∨
  (e = Interval ∧ status g = running ∧
   status (final (dispatch Math_random e g)) = gameover).
Proof.
  assert (status (final (startGame Math_random g)) = status g ∨
          (cols (boardRef g) ≠ 0 ∧
           status (final (startGame Math_random g)) = running)) as Hstart.
  { destruct (startGame_total Math_random g)
      as (g' & -> & _ & _ & Hno & Hyes & _). simpl.
    destruct (decide (cols (boardRef g) = 0)) as [Hc|Hc].
    - left. by rewrite (Hno Hc).
    - right. by destruct (Hyes Hc). }
  destruct e as [w h d| | |k].
  - change (dispatch Math_random (Resize w h d) g)
      with (updateBoard Math_random w h d g).
    left. by destruct (updateBoard_total Math_random w h d g)
      as (g' & -> & _ & _ & ? & _).
  - change (dispatch Math_random Click g) with (startGame Math_random g).
    destruct Hstart as [?|[? ?]]; [by left|by right; left].
  - rewrite dispatch_interval.
    destruct (bool_decide_reflect (status g = running)) as [Hst|Hst];
      [|by left].
    destruct (tick_status Math_random g) as [Hsame|Hover];
      destruct (tick Math_random g); simpl in *;
      [by left|by left|by right; right|by right; right].
  - change (dispatch Math_random (KeyDown k) g)
      with (handleKey Math_random k g).
    destruct (startKey k) eqn:Hk.
    + destruct (handleKey_start Math_random k g Hk) as [->|[_ ->]];
        [|by left].
      destruct Hstart as [?|[? ?]]; [by left|by right; left].
    + left. destruct (handleKey_total Math_random k g)
        as (g' & -> & _ & _ & Hns & _).
      by destruct (Hns Hk) as (_ & _ & _ & ? & _).
Qed.

(** X14. The status moves only along the arrows of the session machine: an
    event leaves it alone, or it is a start event on a sized board and the
    status becomes [running], or it is a firing of the interval in a
    running game and the status becomes [gameover].  Hence, once a game has
    been started, no run of events brings the status back to [ready]. *)
Theorem status_machine Math_random :
  (∀ e g,
     status (final (dispatch Math_random e g)) = status g ∨
     (isStart e = true ∧ cols (boardRef g) ≠ 0 ∧
      status (final (dispatch Math_random e g)) = running) ∨
     (e = Interval ∧ status g = running ∧
      status (final (dispatch Math_random e g)) = gameover)) ∧
  (∀ es g, status g ≠ ready →
           status (final (run Math_random es g)) ≠ ready).
Proof.
  split; [apply dispatch_status|].
  induction es as [|e es IH]; intros g Hst; [done|].
  rewrite run_cons.
  pose proof (dispatch_status Math_random e g) as Hstep.
  destruct (dispatch Math_random e g) as [[] g'|g']; simpl in *.
  - apply IH. destruct Hstep as [?|[(_ & _ & ?)|(_ & _ & ?)]]; congruence.
  - destruct Hstep as [?|[(_ & _ & ?)|(_ & _ & ?)]]; congruence.
Qed.

(** ** More on the keyboard handler *)

Lemma lowerChar_idem c : lowerChar (lowerChar c) = lowerChar c.
Proof. by destruct c as [[] [] [] [] [] [] [] []]. Qed.

Lemma toLowerCase_idem s : toLowerCase (toLowerCase s) = toLowerCase s.
Proof.
  induction s as [|c s IH]; [done|]. simpl. by rewrite lowerChar_idem, IH.
Qed.

(** X15. The keyboard handler does not tell upper case from lower case: a
    key acts exactly as its lower-case form. *)
Theorem handleKey_ignores_case Math_random k g :
  handleKey Math_random k g = handleKey Math_random (toLowerCase k) g.
Proof. unfold handleKey. by rewrite toLowerCase_idem. Qed.

(** X16. Space and Enter start a game only when none is running, and do
    nothing otherwise; the key [r] restarts at any time. *)
Theorem handleKey_start_keys Math_random k g :
  (toLowerCase k = " " ∨ toLowerCase k = "enter" →
   handleKey Math_random k g
   = if bool_decide (status g = running) then Ok tt g
     else startGame Math_random g) ∧
  (toLowerCase k = "r" → handleKey Math_random k g = startGame Math_random g).
Proof.
  split.
  - intros Hk. unfold handleKey, mbind, M_bind, reads, mret, M_ret.
    assert (bool_decide (toLowerCase k = " ")
            || bool_decide (toLowerCase k = "enter") = true) as ->.
    { destruct Hk as [->| ->]; by vm_compute. }
    destruct (decide (status g = running)) as [Hst|Hst].
    + by rewrite bool_decide_eq_false_2, bool_decide_eq_true_2 by auto.
    + by rewrite bool_decide_eq_true_2, bool_decide_eq_false_2.
  - intros Hk. unfold handleKey, mbind, M_bind, reads. by rewrite Hk.
Qed.



(** ** The direction tables *)

(** X18. [opposite] is an involution without fixed point, every direction
    vector is a unit step along one axis, and the vectors of opposite
    directions cancel. *)
Theorem opposite_vectors d :
  opposite (opposite d) = d ∧ opposite d ≠ d ∧
  Z.abs (x (directionVectors d)) + Z.abs (y (directionVectors d)) = 1 ∧
  x (directionVectors (opposite d)) = - x (directionVectors d) ∧
  y (directionVectors (opposite d)) = - y (directionVectors d).
Proof. by destruct d. Qed.

(** ** Resizing *)

Lemma Qfloor_div_ge (w : Q) (c k : Z) :
  0 < c → (inject_Z (k * c) <= w)%Q → k ≤ Qfloor (w / inject_Z c).
Proof.
  intros Hc Hw. rewrite <-(Qfloor_Z k). apply Qfloor_resp_le.
  apply Qle_shift_div_l.
  - change 0%Q with (inject_Z 0). by rewrite <-Zlt_Qlt.
  - by rewrite <-inject_Z_mult.
Qed.

Lemma Qfloor_div_bounds (w : Q) (c : Z) :
  0 < c →
  (inject_Z (Qfloor (w / inject_Z c) * c) <= w)%Q ∧
  (w < inject_Z ((Qfloor (w / inject_Z c) + 1) * c))%Q.
Proof.
  intros Hc.
  assert (0 < inject_Z c)%Q as HcQ.
  { change 0%Q with (inject_Z 0). by rewrite <-Zlt_Qlt. }
  assert (w / inject_Z c * inject_Z c == w)%Q as Hback.
  { rewrite Qmult_comm. apply Qmult_div_r. intros H0. rewrite H0 in HcQ.
    by apply Qlt_irrefl in HcQ. }
  split.
  - rewrite inject_Z_mult.
    eapply Qle_trans;
      [apply Qmult_le_compat_r; [apply Qfloor_le|by apply Qlt_le_weak]|].
    rewrite Hback. apply Qle_refl.
  - rewrite inject_Z_mult.
    eapply Qle_lt_trans;
      [|apply Qmult_lt_compat_r; [exact HcQ|apply Qlt_floor]].
    rewrite Hback. apply Qle_refl.
Qed.

(** X19. The board [updateBoard] computes fits its container: along an
    axis that is at least 12 cells long the board is no longer than the
    container and less than one cell shorter (on a shorter axis it keeps
    12 cells and overflows); when the shorter side of the container is at
    least 392 pixels the grid has at least 28 columns and 28 rows; and the
    pixel ratio is never 0. *)
Theorem computeBoard_fits w h d :
  let board := computeBoard w h d in
  ((inject_Z (12 * cell board) <= w)%Q →
   (inject_Z (width board) <= w)%Q ∧
   (w < inject_Z (width board + cell board))%Q) ∧
  ((inject_Z (12 * cell board) <= h)%Q →
   (inject_Z (height board) <= h)%Q ∧
   (h < inject_Z (height board + cell board))%Q) ∧
  ((392 <= Qmin w h)%Q → 28 ≤ cols board ∧ 28 ≤ rows board) ∧
  ¬ (dpr board == 0)%Q.
Proof.
  intros board.
  set (c := clamp (Qfloor (Qmin w h / inject_Z GRID_TARGET)) MIN_CELL MAX_CELL).
  assert (14 ≤ c ≤ 26) as Hc by (subst c; unfold clamp, MIN_CELL, MAX_CELL; lia).
  assert (∀ v : Q,
    (inject_Z (12 * c) <= v)%Q →
    (inject_Z (Z.max 12 (Qfloor (v / inject_Z c)) * c) <= v)%Q ∧
    (v < inject_Z (Z.max 12 (Qfloor (v / inject_Z c)) * c + c))%Q) as Hfit.
  { intros v Hv.
    pose proof (Qfloor_div_ge v c 12 ltac:(lia) Hv) as Hge.
    rewrite Z.max_r by done.
    destruct (Qfloor_div_bounds v c ltac:(lia)) as [Hlo Hhi].
    split; [done|].
    by replace (Qfloor (v / inject_Z c) * c + c)
      with ((Qfloor (v / inject_Z c) + 1) * c) by lia. }
  split_and!.
  - apply Hfit.
  - apply Hfit.
  - intros Hmin.
    assert (inject_Z (28 * c) <= Qmin w h)%Q as Hm.
    { assert (14 ≤ Qfloor (Qmin w h / inject_Z 28)) as Hf.
      { apply Qfloor_div_ge; [lia|]. exact Hmin. }
      assert (c ≤ Qfloor (Qmin w h / inject_Z 28)) as Hcf.
      { subst c. unfold clamp, MIN_CELL, MAX_CELL, GRID_TARGET. lia. }
      destruct (Qfloor_div_bounds (Qmin w h) 28 ltac:(lia)) as [Hlo _].
      eapply Qle_trans; [|exact Hlo].
      rewrite <-Zle_Qle. lia. }
    change (cols board) with (Z.max 12 (Qfloor (w / inject_Z c))).
    change (rows board) with (Z.max 12 (Qfloor (h / inject_Z c))).
    assert (28 ≤ Qfloor (w / inject_Z c)).
    { apply Qfloor_div_ge; [lia|].
      eapply Qle_trans; [exact Hm|apply Q.le_min_l]. }
    assert (28 ≤ Qfloor (h / inject_Z c)).
    { apply Qfloor_div_ge; [lia|].
      eapply Qle_trans; [exact Hm|apply Q.le_min_r]. }
    lia.
  - change (dpr board) with (if Qeq_bool d 0 then 1%Q else d).
    destruct (Qeq_bool d 0) eqn:Hd.
    + by intros ?.
    + by apply Qeq_bool_neq.
Qed.

(** X20. A resize re-seeds the game only while no game has been started:
    with status [ready] it stores the new board, lays the start snake at
    the centre of that board heading right and places food; in any other
    status it stores the new board and touches nothing else, even when
    that leaves parts of the snake or the food off the board. *)
Theorem updateBoard_effect Math_random w h d g :
  (status g = ready →
   ∃ food n g',
     updateBoard Math_random w h d g = Ok tt g' ∧
     g' = set_foodRef food (set_entropy n
            (set_pendingDirectionRef right
               (set_directionRef right
                  (set_snakeRef (startSnake (computeBoard w h d))
                     (set_boardRef (computeBoard w h d) g))))) ∧
     (unitInterval Math_random → inBounds food (computeBoard w h d)) ∧
     food ∉ snakeRef g') ∧
  (status g ≠ ready →
   updateBoard Math_random w h d g
   = Ok tt (set_boardRef (computeBoard w h d) g)).
Proof.
  split; [|apply updateBoard_started].
  intros Hst.
  pose proof (computeBoard_spec w h d) as (Hc & Hr & _).
  set (board := computeBoard w h d) in *.
  destruct (resetSnake_sized Math_random (set_boardRef board g))
    as (food & n & Hsp & Heq).
  { change (cols board ≠ 0). lia. }
  { change (rows board ≠ 0). lia. }
  eexists food, n, _. split_and!; [|reflexivity| |].
  - unfold updateBoard, mbind, M_bind, reads, modify.
    change (status (set_boardRef (computeBoard w h d) g)) with (status g).
    by rewrite bool_decide_eq_true_2.
  - intros Hunit.
    eapply spawnFood_inBounds; [done| | |exact Hsp];
      change (boardRef (set_boardRef board g)) with board; lia.
  - simpl. eapply spawnFood_free; [exact Hsp|]. right.
    apply origin_off_startSnake.
    change (boardRef (set_boardRef board g)) with board. lia.
Qed.

(** ** What draw paints *)

Lemma omap_flat_map_none {A B C} (f : B → option C) (body : A → list B)
    (l : list A) :
  (∀ a, omap f (body a) = []) → omap f (flat_map body l) = [].
Proof.
  intros Hbody. induction l as [|a l IH]; [done|].
  simpl. by rewrite omap_app, Hbody, IH.
Qed.

Lemma omap_flat_map_one {A B C} (f : B → option C) (body : A → list B)
    (pick : A → C) (l : list A) :
  (∀ a, omap f (body a) = [pick a]) →
  omap f (flat_map body l) = pick <$> l.
Proof.
  intros Hbody. induction l as [|a l IH]; [done|].
  simpl. by rewrite omap_app, Hbody, IH.
Qed.

Lemma omap_concat_imap_none {A B C} (f : B → option C) (l : list A) :
  ∀ body : nat → A → list B,
  (∀ i a, omap f (body i a) = []) → omap f (concat (imap body l)) = [].
Proof.
  induction l as [|a l IH]; intros body Hbody; [done|].
  simpl. rewrite omap_app, Hbody. simpl. apply IH. intros i b. apply Hbody.
Qed.

Lemma omap_concat_imap_one {A B C} (f : B → option C) (l : list A) :
  ∀ (body : nat → A → list B) (pick : nat → A → C),
  (∀ i a, omap f (body i a) = [pick i a]) →
  omap f (concat (imap body l)) = imap pick l.
Proof.
  induction l as [|a l IH]; intros body pick Hbody; [done|].
  simpl. rewrite omap_app, Hbody. simpl. f_equal.
  apply IH. intros i b. apply Hbody.
Qed.

Lemma drawCalls_sized g :
  cols (boardRef g) ≠ 0 → rows (boardRef g) ≠ 0 →
  let board := boardRef g in
  drawCalls g
  = [ Canvas.save;
      Canvas.scale (dpr board) (dpr board);
      Canvas.clearRect 0 0 (width board) (height board);
      Canvas.createLinearGradient 0 0 (width board) (height board);
      Canvas.addColorStop 0 "#0f172a";
      Canvas.addColorStop 1 "#020617";
      Canvas.setFillStyleGradient;
      Canvas.fillRect 0 0 (width board) (height board);
      Canvas.setStrokeStyle "rgba(148, 163, 184, 0.1)";
      Canvas.setLineWidth 1 ]
    ++ flat_map (fun i =>
         [ Canvas.beginPath;
           Canvas.moveTo (i * cell board) 0;
           Canvas.lineTo (i * cell board) (height board);
           Canvas.stroke ]) (seqZ 0 (cols board + 1))
    ++ flat_map (fun j =>
         [ Canvas.beginPath;
           Canvas.moveTo 0 (j * cell board);
           Canvas.lineTo (width board) (j * cell board);
           Canvas.stroke ]) (seqZ 0 (rows board + 1))
    ++ concat (imap (drawSegment board) (snakeRef g))
    ++ [ Canvas.setFillStyle "#f97316";
         Canvas.beginPath;
         Canvas.arc
           (inject_Z (x (foodRef g) * cell board) + inject_Z (cell board) / 2)
           (inject_Z (y (foodRef g) * cell board) + inject_Z (cell board) / 2)
           (inject_Z (cell board) * (35 # 100)) 0 2;
         Canvas.fill;
         Canvas.restore ].
Proof. intros Hc Hr. unfold drawCalls. by rewrite sized_truthy. Qed.

(** X21. [draw] paints nothing on an unsized board.  On a sized board its
    calls start with [save], end with [restore] and contain no other
    [save] or [restore]; and it strokes one line per column boundary and
    one per row boundary. *)
Theorem draw_brackets g :
  (cols (boardRef g) = 0 ∨ rows (boardRef g) = 0 → drawCalls g = []) ∧
  (cols (boardRef g) ≠ 0 → rows (boardRef g) ≠ 0 →
   head (drawCalls g) = Some Canvas.save ∧
   last (drawCalls g) = Some Canvas.restore ∧
   omap bracket (drawCalls g) = [true; false] ∧
   length (omap strokeCall (drawCalls g))
   = (Z.to_nat (cols (boardRef g) + 1) + Z.to_nat (rows (boardRef g) + 1))%nat).
Proof.
  split.
  - intros Hunsized. unfold drawCalls, falsy.
    by destruct Hunsized as [->%Z.eqb_eq| ->%Z.eqb_eq]; rewrite ?orb_true_r.
  - intros Hc Hr. rewrite (drawCalls_sized g Hc Hr). split_and!.
    + done.
    + rewrite !app_assoc. by rewrite last_app.
    + rewrite !omap_app.
      rewrite !omap_flat_map_none by done.
      by rewrite omap_concat_imap_none by done.
    + rewrite !omap_app.
      rewrite (omap_flat_map_one _ _ (fun _ => tt)) by done.
      rewrite (omap_flat_map_one _ _ (fun _ => tt)) by done.
      rewrite omap_concat_imap_none by done.
      simpl. rewrite app_nil_r, length_app, !length_fmap, !length_seqZ. done.
Qed.

(** X22. On a sized board the rectangles [draw] fills are the background,
    covering the board, followed by one square per segment of the snake,
    in order from the head; with a cell size of at least 7 each square has
    positive size and lies strictly inside the cell of its segment. *)
Theorem draw_snake_squares g :
  cols (boardRef g) ≠ 0 → rows (boardRef g) ≠ 0 →
  omap filledRect (drawCalls g)
  = (0, 0, width (boardRef g), height (boardRef g))
    :: imap (segmentSquare (boardRef g)) (snakeRef g) ∧
  (7 ≤ cell (boardRef g) →
   ∀ i p, snakeRef g !! i = Some p →
          insideCell (boardRef g) p (segmentSquare (boardRef g) i p)).
Proof.
  intros Hc Hr. split.
  - rewrite (drawCalls_sized g Hc Hr). rewrite !omap_app.
    rewrite !omap_flat_map_none by done.
    rewrite (omap_concat_imap_one _ _ _ (segmentSquare (boardRef g)))
      by done.
    simpl. by rewrite app_nil_r.
  - intros Hcell i p _. unfold insideCell, segmentSquare.
    destruct (bool_decide (i = 0%nat)); lia.
Qed.

Lemma draw_snake_squares_witness :
  omap filledRect (drawCalls demoGame)
  = (0, 0, width (boardRef demoGame), height (boardRef demoGame))
    :: imap (segmentSquare (boardRef demoGame)) (snakeRef demoGame) ∧
  (7 ≤ cell (boardRef demoGame) →
   ∀ i p, snakeRef demoGame !! i = Some p →
          insideCell (boardRef demoGame) p
            (segmentSquare (boardRef demoGame) i p)).
Proof.
  apply (draw_snake_squares demoGame); vm_compute; lia.
Defined.

(** X23. On a sized board [draw] draws exactly one arc, a full circle
    centred on the centre of the food's cell with a radius of 0.35 cells;
    with a positive cell size the circle lies strictly inside that cell. *)
Theorem draw_food_circle g :
  cols (boardRef g) ≠ 0 → rows (boardRef g) ≠ 0 →
  let board := boardRef g in
  let cx := (inject_Z (x (foodRef g) * cell board) + inject_Z (cell board) / 2)%Q in
  let cy := (inject_Z (y (foodRef g) * cell board) + inject_Z (cell board) / 2)%Q in
  let r := (inject_Z (cell board) * (35 # 100))%Q in
  omap drawnArc (drawCalls g) = [(cx, cy, r, 0%Q, 2%Q)] ∧
  (0 < cell board →
   (0 < r)%Q ∧
   (inject_Z (x (foodRef g) * cell board) < cx - r)%Q ∧
   (cx + r < inject_Z ((x (foodRef g) + 1) * cell board))%Q ∧
   (inject_Z (y (foodRef g) * cell board) < cy - r)%Q ∧
   (cy + r < inject_Z ((y (foodRef g) + 1) * cell board))%Q).
Proof.
  intros Hc Hr board cx cy r. split.
  - rewrite (drawCalls_sized g Hc Hr). rewrite !omap_app.
    rewrite !omap_flat_map_none by done.
    by rewrite omap_concat_imap_none by done.
  - intros Hcell.
    assert (0 < inject_Z (cell board))%Q as HcQ.
    { change 0%Q with (inject_Z 0). by rewrite <-Zlt_Qlt. }
    replace ((x (foodRef g) + 1) * cell board)
      with (x (foodRef g) * cell board + cell board) by lia.
    replace ((y (foodRef g) + 1) * cell board)
      with (y (foodRef g) * cell board + cell board) by lia.
    rewrite !inject_Z_plus. subst cx cy r.
    set (c := inject_Z (cell board)) in *.
    set (a := inject_Z (x (foodRef g) * cell board)).
    set (b := inject_Z (y (foodRef g) * cell board)).
    assert (c / 2 == c * (1 # 2))%Q as Hhalf by (unfold Qdiv; reflexivity).
    rewrite !Hhalf. split_and!; lra.
Qed.

Lemma draw_food_circle_witness :
  omap drawnArc (drawCalls demoGame)
  = [((inject_Z (2 * 14) + inject_Z 14 / 2)%Q,
      (inject_Z (12 * 14) + inject_Z 14 / 2)%Q,
      (inject_Z 14 * (35 # 100))%Q, 0%Q, 2%Q)] ∧
  (0 < 14 →
   (0 < inject_Z 14 * (35 # 100))%Q ∧
   (inject_Z (2 * 14)
    < inject_Z (2 * 14) + inject_Z 14 / 2 - inject_Z 14 * (35 # 100))%Q ∧
   (inject_Z (2 * 14) + inject_Z 14 / 2 + inject_Z 14 * (35 # 100)
    < inject_Z ((2 + 1) * 14))%Q ∧
   (inject_Z (12 * 14)
    < inject_Z (12 * 14) + inject_Z 14 / 2 - inject_Z 14 * (35 # 100))%Q ∧
   (inject_Z (12 * 14) + inject_Z 14 / 2 + inject_Z 14 * (35 # 100)
    < inject_Z ((12 + 1) * 14))%Q).
Proof. apply (draw_food_circle demoGame); vm_compute; lia. Defined.

Lemma omap_flat_map {A B C} (f : B → option C) (body : A → list B)
    (l : list A) :
  omap f (flat_map body l) = flat_map (fun a => omap f (body a)) l.
Proof.
  induction l as [|a l IH]; [done|]. simpl. by rewrite omap_app, IH.
Qed.

(** X24. On a sized board whose pixel size is its grid size times a
    non-negative cell size, every point of every grid line [draw] strokes
    lies on the board rectangle, the last line of each direction running
    along the far edge. *)
Theorem draw_grid_on_board g a b :
  cols (boardRef g) ≠ 0 → rows (boardRef g) ≠ 0 →
  0 ≤ cell (boardRef g) →
  width (boardRef g) = cols (boardRef g) * cell (boardRef g) →
  height (boardRef g) = rows (boardRef g) * cell (boardRef g) →
  0 ≤ cols (boardRef g) → 0 ≤ rows (boardRef g) →
  (a, b) ∈ omap pathPoint (drawCalls g) →
  0 ≤ a ≤ width (boardRef g) ∧ 0 ≤ b ≤ height (boardRef g).
Proof.
  intros Hc Hr Hcell Hw Hh Hcols Hrows.
  rewrite (drawCalls_sized g Hc Hr). rewrite !omap_app, !omap_flat_map.
  rewrite omap_concat_imap_none by done. simpl omap.
  rewrite app_nil_l, !app_nil_r, elem_of_app.
  rewrite !list_elem_of_In, !in_flat_map.
  setoid_rewrite <-list_elem_of_In. setoid_rewrite elem_of_seqZ.
  intros [(i & Hi & Hin)|(j & Hj & Hin)]; simpl in Hin;
    repeat (apply elem_of_cons in Hin as [[= -> ->]|Hin]; [nia|]);
    by apply elem_of_nil in Hin.
Qed.

Lemma draw_grid_on_board_witness :
  (0, 294) ∈ omap pathPoint (drawCalls demoGame) ∧
  0 ≤ 0 ≤ width (boardRef demoGame) ∧
  0 ≤ 294 ≤ height (boardRef demoGame).
Proof.
  assert ((0, 294) ∈ omap pathPoint (drawCalls demoGame)) as Hin.
  { vm_compute. apply elem_of_cons. right. apply elem_of_cons. by left. }
  split; [exact Hin|].
  apply (draw_grid_on_board demoGame 0 294); [..|exact Hin].
  - vm_compute. lia.
  - vm_compute. lia.
  - unfold demoGame. simpl. lia.
  - reflexivity.
  - reflexivity.
  - unfold demoGame. simpl. lia.
  - unfold demoGame. simpl. lia.
Defined.

(** ** Which event changes what *)

Lemma tick_keeps_board Math_random g :
  boardRef (final (tick Math_random g)) = boardRef g.
Proof.
  destruct (decide (cols (boardRef g) = 0)) as [Hc|Hc].
  { by rewrite tick_unsized by (by left). }
  destruct (decide (rows (boardRef g) = 0)) as [Hr|Hr].
  { by rewrite tick_unsized by (by right). }
  destruct (snakeRef g) as [|h tl] eqn:Hs.
  { by rewrite tick_empty. }
  by destruct (tick_effects Math_random g h tl Hc Hr Hs)
    as (o & g' & -> & ? & _).
Qed.

Lemma tick_keeps_highScore_or_ate Math_random g :
  highScore (final (tick Math_random g)) = highScore g ∨
  ∃ g', tick Math_random g = Ok (Some Ate) g'.
Proof.
  destruct (decide (cols (boardRef g) = 0)) as [Hc|Hc].
  { left. by rewrite tick_unsized by (by left). }
  destruct (decide (rows (boardRef g) = 0)) as [Hr|Hr].
  { left. by rewrite tick_unsized by (by right). }
  destruct (snakeRef g) as [|h tl] eqn:Hs.
  { left. by rewrite tick_empty. }
  destruct (tick_effects Math_random g h tl Hc Hr Hs)
    as (o & g' & Htick & _ & _ & _ & Ho).
  destruct o.
  - left. rewrite Htick. by destruct Ho as (_ & _ & _ & _ & _ & ? & _).
  - right. by exists g'.
  - left. rewrite Htick. by destruct Ho as (_ & _ & _ & _ & ? & _).
Qed.

(** X25. Only a resize changes the board, and only a tick that eats
    changes the high score: every other event leaves them as they are. *)
Theorem board_and_highScore_frame Math_random e g :
  ((∀ w h d, e ≠ Resize w h d) →
   boardRef (final (dispatch Math_random e g)) = boardRef g) ∧
  (highScore (final (dispatch Math_random e g)) = highScore g ∨
   (e = Interval ∧ status g = running ∧
    ∃ g', tick Math_random g = Ok (Some Ate) g')).
Proof.
  destruct e as [w h d| | |k].
  - split; [intros Hne; by destruct (Hne w h d)|]. left.
    change (dispatch Math_random (Resize w h d) g)
      with (updateBoard Math_random w h d g).
    by destruct (updateBoard_total Math_random w h d g)
      as (g' & -> & _ & _ & _ & _ & ? & _).
  - change (dispatch Math_random Click g) with (startGame Math_random g).
    destruct (startGame_total Math_random g) as (g' & -> & ? & ? & _).
    split; [done|by left].
  - rewrite dispatch_interval.
    destruct (bool_decide_reflect (status g = running)) as [Hst|Hst];
      [|split; [done|by left]].
    pose proof (tick_keeps_board Math_random g) as Hb.
    pose proof (tick_keeps_highScore_or_ate Math_random g) as Hh.
    destruct (tick Math_random g) as [o g'|g'] eqn:Htick; simpl in *;
      (split; [done|]);
      (destruct Hh as [?|[g'' Hate]];
         [by left|right; split_and!; try done; by exists g'']).
  - change (dispatch Math_random (KeyDown k) g)
      with (handleKey Math_random k g).
    destruct (handleKey_total Math_random k g) as (g' & -> & ? & ? & _).
    split; [done|by left].
Qed.

(** ** A key press followed by a tick *)

(** X26. In a running game on a sized board, a direction key that does not
    ask for the opposite of the committed direction steers the very next
    tick: after the key press and one firing of the interval that
    direction is committed, and either the game is over with the snake as
    it was, or the head has moved one cell in that direction. *)
Theorem key_then_tick Math_random k c g h tl :
  controls !! toLowerCase k = Some c → c ≠ opposite (directionRef g) →
  status g = running →
  cols (boardRef g) ≠ 0 → rows (boardRef g) ≠ 0 → snakeRef g = h :: tl →
  ∃ g', run Math_random [KeyDown k; Interval] g = Ok tt g' ∧
        directionRef g' = c ∧
        ((status g' = gameover ∧ snakeRef g' = snakeRef g) ∨
         (status g' = running ∧ head (snakeRef g') = Some (nextCell h c))).
Proof.
  intros Hk Hne Hst Hc Hr Hs.
  rewrite run_cons.
  change (dispatch Math_random (KeyDown k) g)
    with (handleKey Math_random k g).
  rewrite (handleKey_direction _ _ _ _ Hk).
  unfold requestDirection, mbind, M_bind, reads.
  rewrite directionGate_spec, bool_decide_eq_false_2 by done.
  rewrite run_cons, dispatch_interval.
  change (status (set_pendingDirectionRef c g)) with (status g).
  rewrite bool_decide_eq_true_2 by done.
  destruct (tick_effects Math_random (set_pendingDirectionRef c g) h tl
              Hc Hr Hs) as (o & g' & -> & _ & Hd & _ & Ho).
  exists g'. split; [done|]. split; [exact Hd|].
  simpl in Ho. destruct o.
  - right. destruct Ho as (_ & _ & -> & _ & _ & _ & -> & _).
    by rewrite Hst.
  - right. destruct Ho as (_ & _ & -> & _ & _ & ->). by rewrite Hst.
  - left. by destruct Ho as (_ & ? & _ & _ & _ & ? & _).
Qed.

Lemma key_then_tick_witness :
  ∃ g', run demoRandom [KeyDown "ArrowUp"; Interval] demoGame = Ok tt g' ∧
        directionRef g' = up ∧
        ((status g' = gameover ∧ snakeRef g' = snakeRef demoGame) ∨
         (status g' = running ∧
          head (snakeRef g') = Some (nextCell {| x := 15; y := 10 |} up))).
Proof.
  apply (key_then_tick demoRandom "ArrowUp" up demoGame {| x := 15; y := 10 |}
           [ {| x := 14; y := 10 |}; {| x := 13; y := 10 |} ]).
  - reflexivity.
  - vm_compute. discriminate.
  - reflexivity.
  - vm_compute. lia.
  - vm_compute. lia.
  - reflexivity.
Defined.
